(** * Prin Search: the provider router, the response normalizers and the
    interactive loop of [src/index.js], embedded and verified.

    The file follows the source top-down: strings and values of the host
    language, the effects the program performs (console output, one awaited
    SDK call at a time, exceptions), the command-line helpers, the
    per-provider callers, the router [ask], the interactive loop and the
    entry point; the properties come last. *)

From stdpp Require Import gmap strings list fin_maps.
From Stdlib Require Import Ascii String NArith ZArith Lia.

Set Warnings "-register-all".
#[local] Arguments String.append !s1 s2 : simpl nomatch.

(** ** Strings

    A JavaScript string is a sequence of UTF-16 code units.  The embedding
    covers the strings whose code units are below 256 (the Latin-1 range),
    one [ascii] per code unit. *)

Module JsString.

Definition code (c : ascii) : N := N_of_ascii c.

(** The WhiteSpace and LineTerminator code points of ECMAScript that lie
    below 256: TAB, LF, VT, FF, CR, SPACE and NO-BREAK SPACE. *)
Definition isWhiteSpace (c : ascii) : bool :=
  match code c with
  | 9 | 10 | 11 | 12 | 13 | 32 | 160 => true
  | _ => false
  end%N.

Fixpoint trimStart (s : string) : string :=
  match s with
  | EmptyString => EmptyString
  | String c rest => if isWhiteSpace c then trimStart rest else s
  end.

Fixpoint trimEnd (s : string) : string :=
  match s with
  | EmptyString => EmptyString
  | String c rest =>
      match trimEnd rest with
      | EmptyString => if isWhiteSpace c then EmptyString else String c EmptyString
      | kept => String c kept
      end
  end.

(** [String.prototype.trim]. *)
Definition trim (s : string) : string := trimEnd (trimStart s).

(** Upper-case code units below 256 are A-Z, U+00C0-U+00D6 and
    U+00D8-U+00DE; each maps to the unit 32 above it. *)
Definition isUpper (c : ascii) : bool :=
  let n := code c in
  ((65 <=? n) && (n <=? 90) || (192 <=? n) && (n <=? 222) && negb (n =? 215))%N.

Definition lowerChar (c : ascii) : ascii :=
  if isUpper c then ascii_of_N (code c + 32) else c.

(** [String.prototype.toLowerCase]. *)
Fixpoint toLowerCase (s : string) : string :=
  match s with
  | EmptyString => EmptyString
  | String c rest => String (lowerChar c) (toLowerCase rest)
  end.

(** [s.startsWith(p)]. *)
Definition startsWith (s p : string) : bool := String.prefix p s.

(** Truthiness of a string: every string but the empty one. *)
Definition truthy (s : string) : bool :=
  match s with EmptyString => false | String _ _ => true end.

(** [Array.prototype.join] on strings. *)
Fixpoint join (sep : string) (parts : list string) : string :=
  match parts with
  | [] => EmptyString
  | [p] => p
  | p :: rest => p +:+ sep +:+ join sep rest
  end.

Definition LF : string := String "010"%char EmptyString.
Definition DQUOTE : string := String "034"%char EmptyString.

End JsString.
Import JsString.

(** A value that is a string or absent: [null] and [undefined] are [None].
    [nonempty] keeps the truthy ones, so [a || b] is the first truthy
    operand. *)
Definition nonempty (o : option string) : option string :=
  match o with
  | Some s => if truthy s then Some s else None
  | None => None
  end.

Definition or_else (a b : option string) : option string :=
  match nonempty a with
  | Some s => Some s
  | None => b
  end.

Definition or_default (a : option string) (d : string) : string :=
  match nonempty a with
  | Some s => s
  | None => d
  end.

(** ** Values received from the provider SDKs

    Response payloads are dynamically typed.  A number is kept as what the
    program can observe of it: whether it is falsy (zero or NaN) and its
    string conversion.  Objects are property lists read from the front. *)

Inductive value : Type :=
| VUndefined
| VNull
| VBool (b : bool)
| VNum (falsy : bool) (shown : string)
| VStr (s : string)
| VArr (items : list value)
| VObj (props : list (string * value)).

Definition nullish (v : value) : bool :=
  match v with
  | VUndefined | VNull => true
  | _ => false
  end.

Definition truthy_value (v : value) : bool :=
  match v with
  | VUndefined | VNull => false
  | VBool b => b
  | VNum falsy _ => negb falsy
  | VStr s => truthy s
  | VArr _ | VObj _ => true
  end.

(** [a || b] on values. *)
Definition vor (a b : value) : value := if truthy_value a then a else b.

Fixpoint lookup_prop (name : string) (props : list (string * value)) : option value :=
  match props with
  | [] => None
  | (k, v) :: rest => if String.eqb k name then Some v else lookup_prop name rest
  end.

(** The ToString conversion, as template literals and [join] apply it. *)
Fixpoint ToString (v : value) : string :=
  match v with
  | VUndefined => "undefined"
  | VNull => "null"
  | VBool true => "true"
  | VBool false => "false"
  | VNum _ shown => shown
  | VStr s => s
  | VArr items =>
      join "," (map (fun x => if nullish x then "" else ToString x) items)
  | VObj _ => "[object Object]"
  end.

(** ** Effects

    An [async] function either returns, throws, writes to the console or
    suspends on one outbound SDK call and resumes with its reply. *)

Record JsError := Error { message : string }.

Record ChatMessage := { role : string; content : string }.

Inductive SdkCall : Type :=
| ChatCompletionsCreate (apiKey : string) (baseURL : option string)
                        (model : string) (messages : list ChatMessage)
| GenerateContent (key : string) (model : string) (prompt : string)
| MessagesCreate (apiKey : string) (model : string) (max_tokens : Z)
                 (messages : list ChatMessage).

(** A call is rejected with an error or resolved with a payload. *)
Definition Reply : Type := JsError + value.

Inductive Prog (A : Type) : Type :=
| Ret (a : A)
| Throw (e : JsError)
| Await (c : SdkCall) (k : Reply -> Prog A)
| Log (text : string) (k : Prog A)
| LogError (text : string) (k : Prog A)
| Question (query : string) (k : Prog A)
| Close (k : Prog A).

Arguments Ret {A} a.
Arguments Throw {A} e.
Arguments Await {A} c k.
Arguments Log {A} text k.
Arguments LogError {A} text k.
Arguments Question {A} query k.
Arguments Close {A} k.

Fixpoint bind {A B : Type} (p : Prog A) (f : A -> Prog B) : Prog B :=
  match p with
  | Ret a => f a
  | Throw e => Throw e
  | Await c k => Await c (fun r => bind (k r) f)
  | Log t k => Log t (bind k f)
  | LogError t k => LogError t (bind k f)
  | Question q k => Question q (bind k f)
  | Close k => Close (bind k f)
  end.

(** [try { p } catch (e) { h e }]. *)
Fixpoint try_catch {A : Type} (p : Prog A) (h : JsError -> Prog A) : Prog A :=
  match p with
  | Ret a => Ret a
  | Throw e => h e
  | Await c k => Await c (fun r => try_catch (k r) h)
  | Log t k => Log t (try_catch k h)
  | LogError t k => LogError t (try_catch k h)
  | Question q k => Question q (try_catch k h)
  | Close k => Close (try_catch k h)
  end.

Declare Scope prog_scope.
Delimit Scope prog_scope with prog.
Notation "x <- p ;; q" := (bind p (fun x => q))
  (at level 100, p at next level, right associativity) : prog_scope.
Notation "p ;; q" := (bind p (fun _ => q))
  (at level 100, right associativity) : prog_scope.
Open Scope prog_scope.

(** [await promise]: a rejection is thrown at the await point. *)
Definition await (c : SdkCall) : Prog value :=
  Await c (fun r => match r with inl e => Throw e | inr v => Ret v end).

Definition console_log (text : string) : Prog unit := Log text (Ret tt).
Definition console_error (text : string) : Prog unit := LogError text (Ret tt).

(** [rl.close()]. *)
Definition rl_close : Prog unit := Close (Ret tt).

(** What an execution shows to the outside. *)
Inductive Event : Type :=
| Called (c : SdkCall)
| Logged (text : string)
| LoggedError (text : string)
| Asked (query : string)
| Closed.

(** [run net n p] executes [p]; [net i c] is the reply to the call [c] made
    as the [i]-th one, and [n] counts the calls made so far. *)
Fixpoint run {A : Type} (net : nat -> SdkCall -> Reply) (n : nat) (p : Prog A)
  : list Event * nat * (JsError + A) :=
  match p with
  | Ret a => ([], n, inr a)
  | Throw e => ([], n, inl e)
  | Await c k =>
      let '(tr, n', r) := run net (S n) (k (net n c)) in (Called c :: tr, n', r)
  | Log t k => let '(tr, n', r) := run net n k in (Logged t :: tr, n', r)
  | LogError t k => let '(tr, n', r) := run net n k in (LoggedError t :: tr, n', r)
  | Question q k => let '(tr, n', r) := run net n k in (Asked q :: tr, n', r)
  | Close k => let '(tr, n', r) := run net n k in (Closed :: tr, n', r)
  end.

Definition trace {A : Type} (x : list Event * nat * (JsError + A)) : list Event := x.1.1.
Definition outcome {A : Type} (x : list Event * nat * (JsError + A)) : JsError + A := x.2.


(** ** Property access on payloads *)

Definition of_result {A : Type} (r : JsError + A) : Prog A :=
  match r with
  | inl e => Throw e
  | inr a => Ret a
  end.

Definition cannot_read (what name : string) : JsError :=
  Error ("Cannot read properties of " +:+ what +:+ " (reading '" +:+ name +:+ "')").

(** [o.name], for the names the program reads ([choices], [message],
    [content], [text]), none of which a built-in prototype defines: the
    property of an object, [undefined] on any other value, a TypeError on
    [null] and [undefined]. *)
Definition get (o : value) (name : string) : Prog value :=
  match o with
  | VUndefined => Throw (cannot_read "undefined" name)
  | VNull => Throw (cannot_read "null" name)
  | VObj props => Ret (default VUndefined (lookup_prop name props))
  | _ => Ret VUndefined
  end.

(** [o[0]]: the first element of an array, the first code unit of a
    string, the property ["0"] of an object. *)
Definition first (o : value) : Prog value :=
  match o with
  | VUndefined => Throw (cannot_read "undefined" "0")
  | VNull => Throw (cannot_read "null" "0")
  | VArr items => Ret (default VUndefined (head items))
  | VStr (String c _) => Ret (VStr (String c EmptyString))
  | VObj props => Ret (default VUndefined (lookup_prop "0" props))
  | _ => Ret VUndefined
  end.

(** [o?.rest]: the whole rest of the chain is skipped when [o] is [null]
    or [undefined]. *)
Definition opt (o : value) (rest : value -> Prog value) : Prog value :=
  if nullish o then Ret VUndefined else rest o.

Fixpoint mapM {A B : Type} (f : A -> Prog B) (l : list A) : Prog (list B) :=
  match l with
  | [] => Ret []
  | x :: rest => y <- f x ;; ys <- mapM f rest ;; Ret (y :: ys)
  end.

(** [o.map(f)]: only arrays have a [map]. *)
Definition array_map (o : value) (f : value -> Prog value) : Prog (list value) :=
  match o with
  | VArr items => mapM f items
  | _ => Throw (Error "res.content?.map is not a function")
  end.

(** [items.join(sep)]: [null] and [undefined] elements give the empty
    string, the others their string conversion. *)
Definition array_join (sep : string) (items : list value) : string :=
  join sep (map (fun x => if nullish x then "" else ToString x) items).

(** ** Helpers of the command line: [args] is [process.argv.slice(2)] *)

Fixpoint indexOf (l : list string) (x : string) : Z :=
  match l with
  | [] => -1
  | y :: rest =>
      if String.eqb y x then 0
      else let i := indexOf rest x in if (i <? 0)%Z then -1 else (i + 1)%Z
  end.

Definition getArg (args : list string) (flag : string) (fallback : option string)
  : option string :=
  let i := indexOf args flag in
  if (0 <=? i)%Z then or_else (args !! Z.to_nat (i + 1)) None else fallback.

Definition hasFlag (args : list string) (flag : string) : bool :=
  existsb (String.eqb flag) args.

(** [l.filter((a, i) => keep a i)], the index counted from [i0]. *)
Fixpoint filter_indexed {A : Type} (keep : A -> Z -> bool) (i0 : Z) (l : list A) : list A :=
  match l with
  | [] => []
  | a :: rest =>
      if keep a i0 then a :: filter_indexed keep (i0 + 1)%Z rest
      else filter_indexed keep (i0 + 1)%Z rest
  end.

Definition PROVIDER (args : list string) : string :=
  toLowerCase
    (or_default (or_else (getArg args "-p" None) (getArg args "--provider" None))
                "gemini").

Definition MODEL (args : list string) : option string :=
  or_else (or_else (getArg args "-m" None) (getArg args "--model" None)) None.

Definition PROMPT (args : list string) : option string :=
  head (filter_indexed
          (fun a i => (i =? Z.of_nat (List.length args) - 1)%Z && negb (startsWith a "-"))
          0%Z args).

Definition INTERACTIVE (args : list string) : bool :=
  hasFlag args "-i" || hasFlag args "--interactive".

Record Defaults := {
  openai : string;
  gemini : string;
  perplexity : string;
  deepseek : string;
  claude : string;
  grok : string
}.

Definition DEFAULTS : Defaults := {|
  openai := "gpt-4o-mini";
  gemini := "gemini-1.5-flash";
  perplexity := "sonar-pro";
  deepseek := "deepseek-chat";
  claude := "claude-3-5-sonnet-20240620";
  grok := "grok-2-latest"
|}.

(** [out(label, text)]. *)
Definition out (label : string) (text : value) : Prog unit :=
  console_log (LF +:+ "=== " +:+ label +:+ " ===" +:+ LF +:+ ToString text +:+ LF).

(** ** Per-provider callers *)

(** [res.choices?.[0]?.message?.content || ''] *)
Definition openai_text (res : value) : Prog value :=
  choices <- get res "choices" ;;
  found <- opt choices (fun c =>
             item <- first c ;;
             opt item (fun it =>
               msg <- get it "message" ;;
               opt msg (fun m => get m "content"))) ;;
  Ret (vor found (VStr "")).

(** [res.content?.map(b => b.text || '').join('').trim()], then [txt || '']. *)
Definition claude_text (res : value) : Prog value :=
  blocks <- get res "content" ;;
  txt <- opt blocks (fun bs =>
           texts <- array_map bs (fun b => t <- get b "text" ;; Ret (vor t (VStr ""))) ;;
           Ret (VStr (trim (array_join "" texts)))) ;;
  Ret (vor txt (VStr "")).

Definition user_message (prompt : string) : ChatMessage :=
  {| role := "user"; content := prompt |}.

(** A default parameter applies when the argument is [undefined].  The
    model argument of a caller is a string or left out; [None] is the
    argument left out, and [ask] always passes a string. *)
Definition default_param (arg : option string) (d : string) : string :=
  match arg with
  | Some s => s
  | None => d
  end.

(** The em dash of the banner lies outside Latin-1; it is kept as the
    three bytes of its UTF-8 form. *)
Definition EM_DASH : string :=
  String "226"%char (String "128"%char (String "148"%char EmptyString)).

Definition USAGE : string :=
  "Prin Search" +:+ LF +:+ LF +:+
  "Usage:" +:+ LF +:+
  "  node src/index.js -p gemini " +:+ DQUOTE +:+ "your prompt" +:+ DQUOTE +:+ LF +:+
  "  node src/index.js -p openai -m gpt-4o " +:+ DQUOTE +:+ "your prompt" +:+ DQUOTE +:+ LF +:+
  "  node src/index.js -i -p claude           (interactive)" +:+ LF +:+
  "Providers:" +:+ LF +:+
  "  openai | gemini | perplexity | deepseek | claude | grok" +:+ LF.

Inductive LoopControl : Type := Continue | Break.

(** The states of the loop between two turns. *)
Inductive LoopState : Type := AwaitingInput | Terminated.

Section Program.

(** The process environment. *)
Variable env : gmap string string.

(** The text accessor of the Gemini SDK, [result.response.text()], which
    returns the text or throws. *)
Variable response_text : value -> JsError + value.

Definition callOpenAI (prompt : string) (model : option string)
           (baseURL : option string) (apiKey : string) : Prog value :=
  let model := default_param model DEFAULTS.(openai) in
  res <- await (ChatCompletionsCreate apiKey (nonempty baseURL) model
                  [user_message prompt]) ;;
  openai_text res.

Definition callGemini (prompt : string) (model : option string) : Prog value :=
  let model := default_param model DEFAULTS.(gemini) in
  match nonempty (env !! "GOOGLE_API_KEY") with
  | None => Throw (Error "Missing GOOGLE_API_KEY")
  | Some key =>
      result <- await (GenerateContent key model prompt) ;;
      of_result (response_text result)
  end.

Definition callClaude (prompt : string) (model : option string) : Prog value :=
  let model := default_param model DEFAULTS.(claude) in
  match nonempty (env !! "ANTHROPIC_API_KEY") with
  | None => Throw (Error "Missing ANTHROPIC_API_KEY")
  | Some key =>
      res <- await (MessagesCreate key model 1024 [user_message prompt]) ;;
      claude_text res
  end.

Definition callPerplexity (prompt : string) (model : option string) : Prog value :=
  let model := default_param model DEFAULTS.(perplexity) in
  match nonempty (env !! "PPLX_API_KEY") with
  | None => Throw (Error "Missing PPLX_API_KEY")
  | Some key => callOpenAI prompt (Some model) (Some "https://api.perplexity.ai") key
  end.

Definition callDeepSeek (prompt : string) (model : option string) : Prog value :=
  let model := default_param model DEFAULTS.(deepseek) in
  match nonempty (env !! "DEEPSEEK_API_KEY") with
  | None => Throw (Error "Missing DEEPSEEK_API_KEY")
  | Some key => callOpenAI prompt (Some model) (Some "https://api.deepseek.com/v1") key
  end.

Definition callGrok (prompt : string) (model : option string) : Prog value :=
  let model := default_param model DEFAULTS.(grok) in
  match nonempty (env !! "XAI_API_KEY") with
  | None => Throw (Error "Missing XAI_API_KEY")
  | Some key => callOpenAI prompt (Some model) (Some "https://api.x.ai/v1") key
  end.

(** ** Router *)

Definition ask (provider prompt : string) (model : option string) : Prog value :=
  if String.eqb provider "gemini" then
    callGemini prompt (Some (or_default model DEFAULTS.(gemini)))
  else if String.eqb provider "claude" then
    callClaude prompt (Some (or_default model DEFAULTS.(claude)))
  else if String.eqb provider "perplexity" then
    callPerplexity prompt (Some (or_default model DEFAULTS.(perplexity)))
  else if String.eqb provider "deepseek" then
    callDeepSeek prompt (Some (or_default model DEFAULTS.(deepseek)))
  else if String.eqb provider "grok" then
    callGrok prompt (Some (or_default model DEFAULTS.(grok)))
  else
    (* case 'openai': case 'chatgpt': default: *)
    match nonempty (env !! "OPENAI_API_KEY") with
    | None => Throw (Error "Missing OPENAI_API_KEY")
    | Some key =>
        callOpenAI prompt (Some (or_default model DEFAULTS.(openai))) None key
    end.

(** ** Interactive chat *)

Definition banner (provider : string) (model : option string) : string :=
  LF +:+ "Prin Search " +:+ EM_DASH +:+ " interactive mode" +:+ LF +:+
  "Provider: " +:+ provider +:+
  match nonempty model with
  | Some m => " | Model: " +:+ m
  | None => ""
  end.

(** One turn of the [while (true)] loop on the line [q] just read. *)
Definition chatTurn (provider : string) (model : option string) (q : string)
  : Prog LoopControl :=
  if negb (truthy (trim q)) then Ret Continue
  else if String.eqb (toLowerCase (trim q)) "/exit" then Ret Break
  else
    try_catch (ans <- ask provider q model ;; out "Prin" ans)
              (fun e => console_error ("Error: " +:+ message e)) ;;
    Ret Continue.

(** The [while (true)] loop on the lines its questions receive while
    standard input stays open, one line per question; it is left by [break]
    alone.  When the lines run out the loop is suspended in [rl.question]:
    [AwaitingInput] is that suspended state, not a return of the loop, and
    what the process does when standard input ends lies outside the
    embedding. *)
Fixpoint chatLoop_from (provider : string) (model : option string)
         (stdin : list string) : Prog LoopState :=
  match stdin with
  | [] => Question "You > " (Ret AwaitingInput)
  | q :: rest =>
      Question "You > "
        (c <- chatTurn provider model q ;;
         match c with
         | Continue => chatLoop_from provider model rest
         | Break => Ret Terminated
         end)
  end.

Definition chatLoop (provider : string) (model : option string)
           (stdin : list string) : Prog LoopState :=
  console_log (banner provider model) ;;
  console_log ("Type '/exit' to quit." +:+ LF) ;;
  st <- chatLoop_from provider model stdin ;;
  match st with
  | Terminated => rl_close ;; Ret Terminated
  | AwaitingInput => Ret AwaitingInput
  end.

(** ** Entry

    In interactive mode the run of [main] is the session up to the last
    line given; it ends by [return] only when the loop was left by
    [break]. *)

Definition main (args stdin : list string) : Prog unit :=
  if INTERACTIVE args then
    chatLoop (PROVIDER args) (MODEL args) stdin ;; Ret tt
  else
    match nonempty (PROMPT args) with
    | None => console_log USAGE
    | Some prompt =>
        try_catch (ans <- ask (PROVIDER args) prompt (MODEL args) ;; out "Prin" ans)
                  (fun e => console_error ("Error: " +:+ message e))
    end.

End Program.

(** * Vocabulary of the properties *)

(** The provider keys of the router. *)
Definition provider_keys : list string :=
  ["openai"; "chatgpt"; "gemini"; "claude"; "perplexity"; "deepseek"; "grok"].

(** The keys with a [case] of their own that leaves the [switch]. *)
Definition own_branch_keys : list string :=
  ["gemini"; "claude"; "perplexity"; "deepseek"; "grok"].

(** The credential variable each provider is documented to need. *)
Definition documented_credential (k : string) : string :=
  if String.eqb k "gemini" then "GOOGLE_API_KEY"
  else if String.eqb k "claude" then "ANTHROPIC_API_KEY"
  else if String.eqb k "perplexity" then "PPLX_API_KEY"
  else if String.eqb k "deepseek" then "DEEPSEEK_API_KEY"
  else if String.eqb k "grok" then "XAI_API_KEY"
  else "OPENAI_API_KEY".

(** The default model each provider is documented to use. *)
Definition documented_default_model (k : string) : string :=
  if String.eqb k "gemini" then "gemini-1.5-flash"
  else if String.eqb k "claude" then "claude-3-5-sonnet-20240620"
  else if String.eqb k "perplexity" then "sonar-pro"
  else if String.eqb k "deepseek" then "deepseek-chat"
  else if String.eqb k "grok" then "grok-2-latest"
  else "gpt-4o-mini".

Definition call_model (c : SdkCall) : string :=
  match c with
  | ChatCompletionsCreate _ _ m _ => m
  | GenerateContent _ m _ => m
  | MessagesCreate _ m _ _ => m
  end.

(** [c] is [d] or the capital letter of [d]. *)
Definition same_letter (c d : ascii) : Prop :=
  c = d \/ ((65 <= code c <= 90)%N /\ code d = (code c + 32)%N).

(** [s] is [k] with some of its letters capitalised. *)
Fixpoint casing_of (s k : string) : Prop :=
  match s, k with
  | EmptyString, EmptyString => True
  | String c s', String d k' => same_letter c d /\ casing_of s' k'
  | _, _ => False
  end.

Fixpoint all_whitespace (s : string) : bool :=
  match s with
  | EmptyString => true
  | String c rest => isWhiteSpace c && all_whitespace rest
  end.

Fixpoint all_ascii (s : string) : bool :=
  match s with
  | EmptyString => true
  | String c rest => (code c <? 128)%N && all_ascii rest
  end.

(** The exit sentinel: ["/exit"] in any casing, inside whitespace. *)
Definition exit_sentinel (q : string) : Prop :=
  exists pre e suf,
    q = pre +:+ e +:+ suf /\ all_whitespace pre = true /\
    all_whitespace suf = true /\ casing_of e "/exit".

(** The path [choices[0].message.content] of a payload, segment by
    segment; a segment that is missing, [null] or [undefined] is absent. *)
Definition present (o : option value) : option value :=
  match o with
  | Some v => if nullish v then None else Some v
  | None => None
  end.

Definition field (name : string) (v : value) : option value :=
  match v with
  | VObj props => present (lookup_prop name props)
  | _ => None
  end.

Definition element0 (v : value) : option value :=
  match v with
  | VArr items => present (head items)
  | VObj props => present (lookup_prop "0" props)
  | _ => None
  end.

Definition content_path (res : value) : option value :=
  choices ← field "choices" res;
  item ← element0 choices;
  msg ← field "message" item;
  field "content" msg.

(** The text a content block carries, the empty string when it has none. *)
Definition block_text (block : list (string * value)) : string :=
  match lookup_prop "text" block with
  | Some (VStr s) => s
  | _ => ""
  end.

Definition text_or_absent (block : list (string * value)) : Prop :=
  lookup_prop "text" block = None \/ exists s, lookup_prop "text" block = Some (VStr s).

Definition concat_all (parts : list string) : string :=
  foldr String.append "" parts.

(** Position [i] of the command line holds the value of the flag before it. *)
Definition is_flag_value (args : list string) (i : nat) : bool :=
  match i with
  | O => false
  | S j =>
      match args !! j with
      | Some f => existsb (String.eqb f) ["-p"; "--provider"; "-m"; "--model"]
      | None => false
      end
  end.

(** The dispatch of one-shot mode. *)
Definition one_shot (env : gmap string string) (response_text : value -> JsError + value)
           (provider prompt : string) (model : option string) : Prog unit :=
  try_catch (ans <- ask env response_text provider prompt model ;; out "Prin" ans)
            (fun e => console_error ("Error: " +:+ message e)).

(** The prompt one-shot mode hands to the router, if any. *)
Definition dispatched_prompt (args : list string) : option string :=
  if INTERACTIVE args then None else nonempty (PROMPT args).

(** The prompt is the final argument exactly when that argument does not
    begin with a dash and is positional, not the value of a flag. *)
Definition final_positional_rule (args : list string) : Prop :=
  forall a,
    last args = Some a ->
    dispatched_prompt args = Some a <->
    startsWith a "-" = false /\ is_flag_value args (List.length args - 1) = false.



(** A text accessor and a network for concrete executions: the accessor
    returns ["ok"], every call is rejected as unreachable. *)
Definition sample_text : value -> JsError + value := fun _ => inr (VStr "ok").

Definition unreachable_net : nat -> SdkCall -> Reply :=
  fun _ _ => inl (Error "connect ECONNREFUSED").

(** A program that neither writes nor calls: it returns or throws at once. *)
Definition silent {A : Type} (p : Prog A) : Prop :=
  match p with
  | Ret _ | Throw _ => True
  | _ => False
  end.

(** The number of SDK calls made when an execution ends. *)
Definition call_count {A : Type} (x : list Event * nat * (JsError + A)) : nat := x.1.2.

(** The request a provider key is dispatched as once its credential [key]
    is there: the SDK entry point, the endpoint, the model and the payload. *)
Definition sdk_request (k key prompt : string) (model : option string) : SdkCall :=
  let m := or_default model (documented_default_model k) in
  let msgs := [{| role := "user"; content := prompt |}] in
  if String.eqb k "gemini" then GenerateContent key m prompt
  else if String.eqb k "claude" then MessagesCreate key m 1024 msgs
  else if String.eqb k "perplexity" then
    ChatCompletionsCreate key (Some "https://api.perplexity.ai") m msgs
  else if String.eqb k "deepseek" then
    ChatCompletionsCreate key (Some "https://api.deepseek.com/v1") m msgs
  else if String.eqb k "grok" then
    ChatCompletionsCreate key (Some "https://api.x.ai/v1") m msgs
  else ChatCompletionsCreate key None m msgs.

(** The call carries the credential that the environment holds for the
    endpoint it goes to. *)
Definition call_authorised (env : gmap string string) (c : SdkCall) : Prop :=
  match c with
  | GenerateContent key _ _ => nonempty (env !! "GOOGLE_API_KEY") = Some key
  | MessagesCreate key _ _ _ => nonempty (env !! "ANTHROPIC_API_KEY") = Some key
  | ChatCompletionsCreate key url _ _ =>
      (url = None /\ nonempty (env !! "OPENAI_API_KEY") = Some key) \/
      (url = Some "https://api.perplexity.ai" /\
       nonempty (env !! "PPLX_API_KEY") = Some key) \/
      (url = Some "https://api.deepseek.com/v1" /\
       nonempty (env !! "DEEPSEEK_API_KEY") = Some key) \/
      (url = Some "https://api.x.ai/v1" /\
       nonempty (env !! "XAI_API_KEY") = Some key)
  end.

Definition authorised_event (env : gmap string string) (ev : Event) : Prop :=
  match ev with
  | Called c => call_authorised env c
  | _ => True
  end.

(** The lines of standard input that are not blank. *)
Definition nonblank_lines (stdin : list string) : list string :=
  List.filter (fun q => negb (all_whitespace q)) stdin.

(** A network that resolves every call with the payload [res]. *)
Definition answering_net (res : value) : nat -> SdkCall -> Reply :=
  fun _ _ => inr res.

Definition completion (text : string) : value :=
  VObj [("choices", VArr [VObj [("message", VObj [("content", VStr text)])]])].

(** * Facts on strings *)

Lemma isUpper_spec (c : ascii) :
  isUpper c = true <->
  (65 <= code c <= 90)%N \/ ((192 <= code c <= 222)%N /\ code c <> 215%N).
Proof.
  unfold isUpper. cbv zeta.
  rewrite orb_true_iff, !andb_true_iff, negb_true_iff, !N.leb_le, N.eqb_neq.
  lia.
Qed.

Lemma code_lowerChar (c : ascii) :
  isUpper c = true -> code (lowerChar c) = (code c + 32)%N.
Proof.
  intros Hup. unfold lowerChar. rewrite Hup.
  apply isUpper_spec in Hup.
  unfold code in *. apply N_ascii_embedding. lia.
Qed.

Lemma code_inj (c d : ascii) : code c = code d -> c = d.
Proof.
  unfold code. intros H.
  rewrite <- (ascii_N_embedding c), <- (ascii_N_embedding d). by rewrite H.
Qed.

Lemma lowerChar_same_letter (c d : ascii) :
  same_letter c d -> lowerChar d = d -> lowerChar c = d.
Proof.
  intros [-> | [Hrange Hd]] Hfix; [done |].
  apply code_inj. rewrite Hd. apply code_lowerChar.
  apply isUpper_spec. by left.
Qed.

Lemma lowerChar_inv (c d : ascii) :
  lowerChar c = d -> (code d <? 128)%N = true -> same_letter c d.
Proof.
  intros Hlow Hd. apply N.ltb_lt in Hd.
  destruct (isUpper c) eqn:Hup.
  - right. rewrite <- Hlow in *. rewrite code_lowerChar in * by done.
    apply isUpper_spec in Hup. lia.
  - left. unfold lowerChar in Hlow. by rewrite Hup in Hlow.
Qed.

Lemma toLowerCase_casing (s k : string) :
  casing_of s k -> toLowerCase k = k -> toLowerCase s = k.
Proof.
  revert k. induction s as [| c s IH]; intros [| d k]; simpl; try done.
  intros [Hc Hs] Hk. injection Hk as Hd Hk.
  f_equal; [by apply lowerChar_same_letter | by apply IH].
Qed.

Lemma toLowerCase_inv (s k : string) :
  toLowerCase s = k -> all_ascii k = true -> casing_of s k.
Proof.
  revert k. induction s as [| c s IH]; intros [| d k]; simpl; try done.
  intros Heq Hk. injection Heq as Hd Hs.
  apply andb_prop in Hk as [Hd' Hk].
  split; [by apply lowerChar_inv | by apply IH].
Qed.

Lemma append_empty_r (s : string) : s +:+ "" = s.
Proof. induction s; simpl; congruence. Qed.

Lemma all_whitespace_app (s t : string) :
  all_whitespace (s +:+ t) = all_whitespace s && all_whitespace t.
Proof.
  induction s as [| c s IH]; simpl; [done |].
  rewrite IH. by rewrite andb_assoc.
Qed.

Lemma trimStart_whitespace (pre s : string) :
  all_whitespace pre = true -> trimStart (pre +:+ s) = trimStart s.
Proof.
  induction pre as [| c pre IH]; simpl; [done |].
  intros [Hc Hpre]%andb_prop. rewrite Hc. by apply IH.
Qed.

Lemma trimEnd_all_whitespace (s : string) :
  all_whitespace s = true -> trimEnd s = "".
Proof.
  induction s as [| c s IH]; simpl; [done |].
  intros [Hc Hs]%andb_prop. rewrite (IH Hs). by rewrite Hc.
Qed.

Lemma trimEnd_whitespace (s suf : string) :
  all_whitespace suf = true -> trimEnd (s +:+ suf) = trimEnd s.
Proof.
  intros Hsuf. induction s as [| c s IH]; simpl.
  - by apply trimEnd_all_whitespace.
  - by rewrite IH.
Qed.

Lemma trim_all_whitespace (s : string) :
  all_whitespace s = true -> trim s = "".
Proof.
  intros Hs. unfold trim.
  rewrite <- (append_empty_r s).
  by rewrite trimStart_whitespace.
Qed.

Lemma trimStart_split (s : string) :
  exists pre, s = pre +:+ trimStart s /\ all_whitespace pre = true.
Proof.
  induction s as [| c s [pre [Heq Hpre]]]; simpl.
  - by exists "".
  - destruct (isWhiteSpace c) eqn:Hc.
    + exists (String c pre). simpl. rewrite Hc, Hpre. by rewrite <- Heq.
    + by exists "".
Qed.

Lemma trimEnd_split (s : string) :
  exists suf, s = trimEnd s +:+ suf /\ all_whitespace suf = true.
Proof.
  induction s as [| c s [suf [Heq Hsuf]]]; simpl.
  - by exists "".
  - destruct (trimEnd s) as [| d kept] eqn:Hkept.
    + simpl in Heq. subst suf. destruct (isWhiteSpace c) eqn:Hc.
      * exists (String c s). simpl. by rewrite Hc, Hsuf.
      * by exists s.
    + exists suf. simpl in *. by rewrite <- Heq.
Qed.

(** [trim] removes whitespace, and only whitespace, from both ends. *)
Lemma trim_split (s : string) :
  exists pre suf,
    s = pre +:+ trim s +:+ suf /\
    all_whitespace pre = true /\ all_whitespace suf = true.
Proof.
  destruct (trimStart_split s) as [pre [Hs Hpre]].
  destruct (trimEnd_split (trimStart s)) as [suf [Ht Hsuf]].
  exists pre, suf. unfold trim. by rewrite <- Ht.
Qed.

Lemma trim_empty_iff (s : string) :
  trim s = "" <-> all_whitespace s = true.
Proof.
  split; [| apply trim_all_whitespace].
  intros Ht. destruct (trim_split s) as [pre [suf [Hs [Hpre Hsuf]]]].
  rewrite Hs, Ht. simpl. rewrite all_whitespace_app. by rewrite Hpre, Hsuf.
Qed.

Lemma truthy_trim (s : string) :
  truthy (trim s) = negb (all_whitespace s).
Proof.
  destruct (all_whitespace s) eqn:Hs.
  - by rewrite trim_all_whitespace.
  - destruct (trim s) eqn:Ht; [| done].
    apply trim_empty_iff in Ht. congruence.
Qed.

Lemma same_letter_slash (c : ascii) : same_letter c "/" -> c = "/"%char.
Proof.
  intros [-> | [Hrange Hc]]; [done |].
  change (code "/") with 47%N in Hc. lia.
Qed.

Lemma same_letter_t (c : ascii) : same_letter c "t" -> c = "t"%char \/ c = "T"%char.
Proof.
  intros [-> | [Hrange Hc]]; [by left | right].
  apply code_inj. change (code "t") with 116%N in Hc. change (code "T") with 84%N. lia.
Qed.

Lemma trim_exit_casing (pre e suf : string) :
  all_whitespace pre = true -> all_whitespace suf = true ->
  casing_of e "/exit" -> trim (pre +:+ e +:+ suf) = e.
Proof.
  intros Hpre Hsuf He. unfold trim.
  rewrite trimStart_whitespace by done.
  destruct e as [| c0 [| c1 [| c2 [| c3 [| c4 [| c5 e]]]]]]; simpl in He; try tauto.
  destruct He as (H0%same_letter_slash & _ & _ & _ & H4%same_letter_t & _).
  subst c0.
  assert (trimStart (String "/" (String c1 (String c2 (String c3 (String c4 "")))) +:+ suf)
          = String "/" (String c1 (String c2 (String c3 (String c4 "")))) +:+ suf)
    as -> by done.
  rewrite trimEnd_whitespace by done.
  by destruct H4 as [-> | ->].
Qed.

Lemma exit_sentinel_iff (q : string) :
  toLowerCase (trim q) = "/exit" <-> exit_sentinel q.
Proof.
  split.
  - intros Hlow. destruct (trim_split q) as [pre [suf [Hq [Hpre Hsuf]]]].
    exists pre, (trim q), suf. repeat split; try done.
    by apply toLowerCase_inv.
  - intros (pre & e & suf & -> & Hpre & Hsuf & He).
    rewrite trim_exit_casing by done. by apply toLowerCase_casing.
Qed.

(** * Facts on executions *)

Lemma run_bind {A B : Type} (net : nat -> SdkCall -> Reply) (p : Prog A)
      (f : A -> Prog B) (n : nat) :
  run net n (bind p f) =
  let '(tr, n', r) := run net n p in
  match r with
  | inl e => (tr, n', inl e)
  | inr a => let '(tr2, n2, r2) := run net n' (f a) in (tr ++ tr2, n2, r2)
  end.
Proof.
  revert n.
  induction p as [a | e | c k IH | t k IH | t k IH | q k IH | k IH]; intros n; simpl.
  - by destruct (run net n (f a)) as [[tr2 n2] r2].
  - done.
  - rewrite IH. destruct (run net (S n) (k (net n c))) as [[tr n'] [e | a]]; [done |].
    by destruct (run net n' (f a)) as [[tr2 n2] r2].
  - rewrite IH. destruct (run net n k) as [[tr n'] [e | a]]; [done |].
    by destruct (run net n' (f a)) as [[tr2 n2] r2].
  - rewrite IH. destruct (run net n k) as [[tr n'] [e | a]]; [done |].
    by destruct (run net n' (f a)) as [[tr2 n2] r2].
  - rewrite IH. destruct (run net n k) as [[tr n'] [e | a]]; [done |].
    by destruct (run net n' (f a)) as [[tr2 n2] r2].
  - rewrite IH. destruct (run net n k) as [[tr n'] [e | a]]; [done |].
    by destruct (run net n' (f a)) as [[tr2 n2] r2].
Qed.

Lemma run_try_catch {A : Type} (net : nat -> SdkCall -> Reply) (p : Prog A)
      (h : JsError -> Prog A) (n : nat) :
  run net n (try_catch p h) =
  let '(tr, n', r) := run net n p in
  match r with
  | inl e => let '(tr2, n2, r2) := run net n' (h e) in (tr ++ tr2, n2, r2)
  | inr a => (tr, n', inr a)
  end.
Proof.
  revert n.
  induction p as [a | e | c k IH | t k IH | t k IH | q k IH | k IH]; intros n; simpl.
  - done.
  - by destruct (run net n (h e)) as [[tr2 n2] r2].
  - rewrite IH. destruct (run net (S n) (k (net n c))) as [[tr n'] [e | a]]; [| done].
    by destruct (run net n' (h e)) as [[tr2 n2] r2].
  - rewrite IH. destruct (run net n k) as [[tr n'] [e | a]]; [| done].
    by destruct (run net n' (h e)) as [[tr2 n2] r2].
  - rewrite IH. destruct (run net n k) as [[tr n'] [e | a]]; [| done].
    by destruct (run net n' (h e)) as [[tr2 n2] r2].
  - rewrite IH. destruct (run net n k) as [[tr n'] [e | a]]; [| done].
    by destruct (run net n' (h e)) as [[tr2 n2] r2].
  - rewrite IH. destruct (run net n k) as [[tr n'] [e | a]]; [| done].
    by destruct (run net n' (h e)) as [[tr2 n2] r2].
Qed.

(** * The router *)

(** Membership in a list of literal keys, one case per key. *)
Ltac each_key H :=
  repeat (apply elem_of_cons in H as [-> | H]); [.. | by apply elem_of_nil in H].

Ltac in_keys :=
  unfold provider_keys, own_branch_keys; rewrite ?elem_of_cons; tauto.

Ltac not_in_keys :=
  let H := fresh in
  unfold provider_keys, own_branch_keys; intros H;
  repeat (apply elem_of_cons in H as [H | H]; [discriminate H |]);
  by apply elem_of_nil in H.

Section RouterProperties.

Variable env : gmap string string.
Variable response_text : value -> JsError + value.

Lemma ask_falls_through (k prompt : string) (model : option string) :
  k ∉ own_branch_keys ->
  ask env response_text k prompt model =
  match nonempty (env !! "OPENAI_API_KEY") with
  | None => Throw (Error "Missing OPENAI_API_KEY")
  | Some key => callOpenAI prompt (Some (or_default model DEFAULTS.(openai))) None key
  end.
Proof.
  intros Hk. unfold ask.
  repeat match goal with
         | |- context [String.eqb k ?lit] =>
             destruct (String.eqb_spec k lit) as [-> | _];
             [exfalso; apply Hk; in_keys |]
         end.
  done.
Qed.

(** C1. Dispatch with a key outside the key set (such as ["foo"] or the
    empty string) or with the synonym ["chatgpt"] is dispatch with
    ["openai"]: the same check of OPENAI_API_KEY, then the OpenAI builder
    with the override or the default model gpt-4o-mini. *)
Theorem ask_unrecognized_as_openai (k prompt : string) (model : option string) :
  k ∉ provider_keys \/ k = "chatgpt" ->
  ask env response_text k prompt model = ask env response_text "openai" prompt model /\
  ask env response_text k prompt model =
    match nonempty (env !! "OPENAI_API_KEY") with
    | None => Throw (Error "Missing OPENAI_API_KEY")
    | Some key => callOpenAI prompt (Some (or_default model "gpt-4o-mini")) None key
    end.
Proof.
  intros Hk.
  assert (k ∉ own_branch_keys) as Hown.
  { destruct Hk as [Hk | ->].
    - intros Hin. apply Hk. unfold own_branch_keys in Hin. each_key Hin; in_keys.
    - not_in_keys. }
  rewrite (ask_falls_through k) by done.
  rewrite (ask_falls_through "openai") by not_in_keys.
  done.
Qed.

(** C2. For every provider key, when the credential variable of the
    resolved provider is absent, dispatch throws the missing-credential
    error at once: the program is the bare throw, so its execution makes no
    SDK call. *)
Theorem ask_missing_credential (k prompt : string) (model : option string) :
  k ∈ provider_keys ->
  env !! documented_credential k = None ->
  ask env response_text k prompt model =
    Throw (Error ("Missing " +:+ documented_credential k)) /\
  forall net n,
    run net n (ask env response_text k prompt model) =
      ([], n, inl (Error ("Missing " +:+ documented_credential k))).
Proof.
  intros Hk Hcred.
  assert (ask env response_text k prompt model =
          Throw (Error ("Missing " +:+ documented_credential k))) as ->.
  { unfold provider_keys in Hk. each_key Hk;
      vm_compute documented_credential in *;
      unfold ask, callGemini, callClaude, callPerplexity, callDeepSeek, callGrok;
      simpl; by rewrite Hcred. }
  done.
Qed.

Lemma casing_of_nonempty (s k : string) :
  casing_of s k -> truthy k = true -> truthy s = true.
Proof. by destruct s, k. Qed.

(** [ask] compares the key exactly: the capitalised key of another branch
    falls through to the OpenAI branch. *)
Remark ask_compares_exactly (prompt : string) (model : option string) :
  ask env response_text "GEMINI" prompt model = ask env response_text "openai" prompt model.
Proof. done. Qed.

(** C3. The provider key of the command line is matched without regard to
    case: when the key read from [-p] or [--provider] is a casing of one of
    the provider keys, [PROVIDER] is the lower-case key and the router takes
    the branch of that key. *)
Theorem dispatch_case_insensitive (args : list string) (s k prompt : string)
        (model : option string) :
  k ∈ provider_keys ->
  casing_of s k ->
  or_else (getArg args "-p" None) (getArg args "--provider" None) = Some s ->
  PROVIDER args = k /\
  ask env response_text (PROVIDER args) prompt model =
    ask env response_text k prompt model.
Proof.
  intros Hk Hs Hargs.
  assert (PROVIDER args = k) as ->; [| done].
  unfold PROVIDER. rewrite Hargs. unfold or_default, nonempty.
  rewrite (casing_of_nonempty s k Hs) by (each_key Hk; done).
  apply toLowerCase_casing; [done |]. by each_key Hk.
Qed.

(** C4. Without a model override every provider key gets the documented
    default model: a [null] override is dispatched as the default itself,
    and the SDK call made once the credential is there carries it. *)
Theorem ask_default_model (k prompt key : string) :
  k ∈ provider_keys ->
  nonempty (env !! documented_credential k) = Some key ->
  ask env response_text k prompt None =
    ask env response_text k prompt (Some (documented_default_model k)) /\
  exists call resume,
    ask env response_text k prompt None = Await call resume /\
    call_model call = documented_default_model k.
Proof.
  intros Hk Hkey. unfold provider_keys in Hk.
  each_key Hk; vm_compute documented_credential in Hkey;
    vm_compute documented_default_model;
    (split; [done |]);
    unfold ask, callGemini, callClaude, callPerplexity, callDeepSeek, callGrok, callOpenAI;
    simpl; rewrite Hkey; simpl; eauto.
Qed.

(** The request of the shared OpenAI-compatible builder. *)
Lemma callOpenAI_request (prompt : string) (model baseURL : option string)
      (apiKey : string) :
  callOpenAI prompt model baseURL apiKey =
  Await (ChatCompletionsCreate apiKey (nonempty baseURL)
           (default_param model "gpt-4o-mini")
           [{| role := "user"; content := prompt |}])
        (fun r => bind (of_result r) openai_text).
Proof. unfold callOpenAI, await. simpl. f_equal. Qed.

(** C7. Each OpenAI-compatible provider sends a request whose message
    array is the single message of role ["user"] with the prompt as its
    content, unchanged. *)
Theorem openai_compatible_single_user_message (k prompt key : string)
        (model : option string) :
  k ∈ ["openai"; "perplexity"; "deepseek"; "grok"] ->
  nonempty (env !! documented_credential k) = Some key ->
  exists url mdl resume,
    ask env response_text k prompt model =
      Await (ChatCompletionsCreate key url mdl [{| role := "user"; content := prompt |}])
            resume.
Proof.
  intros Hk Hkey.
  each_key Hk; vm_compute documented_credential in Hkey;
    unfold ask, callPerplexity, callDeepSeek, callGrok;
    simpl; rewrite Hkey; rewrite callOpenAI_request; eauto.
Qed.

End RouterProperties.

(** * The response normalizers *)

Lemma vor_string (s : string) : vor (VStr s) (VStr "") = VStr s.
Proof. by destruct s. Qed.

(** The normalizer on any payload but [null] and [undefined]: no
    exception, the empty string when the path is absent, and [c || ''] for
    the value [c] at the path. *)
Lemma openai_text_of_path (res : value) :
  nullish res = false ->
  exists v,
    openai_text res = Ret v /\
    (content_path res = None -> v = VStr "") /\
    (forall c, content_path res = Some c -> v = vor c (VStr "")).
Proof.
  intros Hres.
  unfold openai_text, content_path, field, element0, present, get, first, opt.
  repeat (simpl; case_match; simplify_eq/=;
          try (eexists; split; [reflexivity | split; [done | intros; by simplify_eq/=]])).
  all: eexists; split; [reflexivity |].
  all: split; [intros; by destruct v | intros; by simplify_eq/=].
Qed.

(** C5. On every response object the OpenAI-compatible normalizer returns
    without an exception; it returns the empty string when [choices] is
    absent, when it is the empty array, or when any segment of
    [choices[0].message.content] is absent, and the string at that path
    otherwise. *)
Theorem openai_text_spec (res : value) :
  nullish res = false ->
  (exists v, openai_text res = Ret v) /\
  (field "choices" res = None -> openai_text res = Ret (VStr "")) /\
  (field "choices" res = Some (VArr []) -> openai_text res = Ret (VStr "")) /\
  (content_path res = None -> openai_text res = Ret (VStr "")) /\
  (forall s, content_path res = Some (VStr s) -> openai_text res = Ret (VStr s)).
Proof.
  intros Hres.
  destruct (openai_text_of_path res Hres) as (v & Hv & Habsent & Hpresent).
  rewrite Hv. split; [by exists v |].
  assert (content_path res = None -> @Ret value v = Ret (VStr "")) as Hnone
    by (intros Hp; by rewrite (Habsent Hp)).
  repeat split.
  - intros Hc. apply Hnone. unfold content_path. by rewrite Hc.
  - intros Hc. apply Hnone. unfold content_path. by rewrite Hc.
  - done.
  - intros s Hs. by rewrite (Hpresent _ Hs), vor_string.
Qed.

Lemma join_empty_strings (parts : list string) :
  array_join "" (VStr <$> parts) = concat_all parts.
Proof.
  unfold array_join, concat_all.
  induction parts as [| p [| p' parts] IH]; simpl in *.
  - done.
  - by rewrite append_empty_r.
  - by rewrite <- IH.
Qed.

Lemma mapM_block_texts (blocks : list (list (string * value))) :
  Forall text_or_absent blocks ->
  mapM (fun b => t <- get b "text" ;; Ret (vor t (VStr ""))) (VObj <$> blocks) =
  Ret (VStr <$> (block_text <$> blocks)).
Proof.
  induction 1 as [| b blocks Hb _ IH]; [done |].
  rewrite !fmap_cons. cbn [mapM]. rewrite IH. simpl. unfold block_text.
  destruct Hb as [-> | [s ->]]; simpl; [done |]. by rewrite vor_string.
Qed.

(** C6. On a sequence of content blocks the claude normalizer returns the
    texts of the blocks concatenated in order, a block without a text
    counting as the empty string, with the whitespace at both ends removed;
    on [[{text:"a"}, {}, {text:"b"}]] that is ["ab"]. *)
Theorem claude_text_spec (props : list (string * value))
        (blocks : list (list (string * value))) :
  lookup_prop "content" props = Some (VArr (VObj <$> blocks)) ->
  Forall text_or_absent blocks ->
  claude_text (VObj props) = Ret (VStr (trim (concat_all (block_text <$> blocks)))) /\
  claude_text
    (VObj [("content", VArr [VObj [("text", VStr "a")]; VObj []; VObj [("text", VStr "b")]])])
  = Ret (VStr "ab").
Proof.
  intros Hcontent Hblocks. split; [| done].
  unfold claude_text. cbn [get bind]. rewrite Hcontent.
  unfold opt, array_map, default. cbn [from_option id nullish bind].
  rewrite mapM_block_texts by done. cbn [bind].
  rewrite join_empty_strings. by rewrite vor_string.
Qed.

(** * The interactive loop *)

Section LoopProperties.

Variable env : gmap string string.
Variable response_text : value -> JsError + value.
Variable provider : string.
Variable model : option string.

Lemma chatTurn_whitespace (q : string) :
  all_whitespace q = true -> chatTurn env response_text provider model q = Ret Continue.
Proof. intros Hq. unfold chatTurn. by rewrite truthy_trim, Hq. Qed.

Lemma exit_sentinel_not_whitespace (q : string) :
  exit_sentinel q -> all_whitespace q = false.
Proof.
  intros Hq%exit_sentinel_iff. destruct (all_whitespace q) eqn:Hws; [| done].
  by rewrite trim_all_whitespace in Hq.
Qed.

Lemma chatTurn_exit (q : string) :
  exit_sentinel q -> chatTurn env response_text provider model q = Ret Break.
Proof.
  intros Hq. unfold chatTurn.
  rewrite truthy_trim, (exit_sentinel_not_whitespace q Hq). simpl.
  apply exit_sentinel_iff in Hq. by rewrite Hq.
Qed.

(** A turn that dispatches runs the router, prints the answer or the
    message of the error, and continues. *)
Lemma chatTurn_dispatch (q : string) (net : nat -> SdkCall -> Reply) (n : nat) :
  all_whitespace q = false -> ~ exit_sentinel q ->
  run net n (chatTurn env response_text provider model q) =
  let '(tr, n', r) := run net n (ask env response_text provider q model) in
  (tr ++ [match r with
          | inl e => LoggedError ("Error: " +:+ message e)
          | inr ans => Logged (LF +:+ "=== Prin ===" +:+ LF +:+ ToString ans +:+ LF)
          end], n', inr Continue).
Proof.
  intros Hws Hexit. unfold chatTurn. rewrite truthy_trim, Hws. simpl.
  destruct (String.eqb_spec (toLowerCase (trim q)) "/exit") as [Heq | _].
  { by apply exit_sentinel_iff in Heq. }
  rewrite run_bind, run_try_catch, run_bind.
  destruct (run net n (ask env response_text provider q model)) as [[tr n'] [e | ans]];
    simpl; by rewrite app_nil_r.
Qed.

Lemma chatLoop_from_outcome (net : nat -> SdkCall -> Reply) (stdin : list string) (n : nat) :
  (Exists exit_sentinel stdin /\
   outcome (run net n (chatLoop_from env response_text provider model stdin)) = inr Terminated) \/
  (~ Exists exit_sentinel stdin /\
   outcome (run net n (chatLoop_from env response_text provider model stdin)) = inr AwaitingInput).
Proof.
  revert n. induction stdin as [| q stdin IH]; intros n.
  { right. split; [by intros ?%Exists_nil | done]. }
  cbn [chatLoop_from run]. rewrite run_bind.
  destruct (String.eqb_spec (toLowerCase (trim q)) "/exit") as [Hq%exit_sentinel_iff | Hq].
  { left. split; [by left |]. by rewrite chatTurn_exit. }
  assert (~ exit_sentinel q) as Hnot by (by intros ?%exit_sentinel_iff).
  assert (exists tr n', run net n (chatTurn env response_text provider model q)
                        = (tr, n', inr Continue)) as (tr & n' & ->).
  { destruct (all_whitespace q) eqn:Hws.
    - rewrite chatTurn_whitespace by done. by eexists _, _.
    - rewrite chatTurn_dispatch by done.
      destruct (run net n (ask env response_text provider q model)) as [[tr n'] r].
      by eexists _, _. }
  destruct (IH n') as [[Hex Hout] | [Hex Hout]]; [left | right].
  - split; [by right |].
    destruct (run net n' (chatLoop_from env response_text provider model stdin))
      as [[tr2 n2] r2]. done.
  - split; [by intros [? | ?]%Exists_cons |].
    destruct (run net n' (chatLoop_from env response_text provider model stdin))
      as [[tr2 n2] r2]. done.
Qed.

Lemma chatLoop_outcome (net : nat -> SdkCall -> Reply) (stdin : list string) (n : nat) :
  outcome (run net n (chatLoop env response_text provider model stdin)) =
  outcome (run net n (chatLoop_from env response_text provider model stdin)).
Proof.
  unfold chatLoop, console_log, rl_close. cbn [bind run]. rewrite run_bind.
  by destruct (run net n (chatLoop_from env response_text provider model stdin))
    as [[tr n'] [e | [|]]].
Qed.

(** C8. A turn on an empty or whitespace-only line is the bare
    continuation, and a turn on the exit sentinel (["/exit"] in any casing
    inside whitespace) is the bare break: neither dispatches.  A turn whose
    dispatch fails prints the message of the error and continues.  The loop
    ends in the terminated state exactly when a line is the exit sentinel;
    otherwise it is awaiting input. *)
Theorem chatLoop_step_spec (q : string) (stdin : list string)
        (net : nat -> SdkCall -> Reply) (n : nat) :
  (all_whitespace q = true ->
   chatTurn env response_text provider model q = Ret Continue) /\
  (exit_sentinel q ->
   chatTurn env response_text provider model q = Ret Break) /\
  (forall tr n' e,
     all_whitespace q = false -> ~ exit_sentinel q ->
     run net n (ask env response_text provider q model) = (tr, n', inl e) ->
     run net n (chatTurn env response_text provider model q) =
       (tr ++ [LoggedError ("Error: " +:+ message e)], n', inr Continue)) /\
  (outcome (run net n (chatLoop env response_text provider model stdin)) = inr Terminated
   <-> Exists exit_sentinel stdin) /\
  (~ Exists exit_sentinel stdin ->
   outcome (run net n (chatLoop env response_text provider model stdin)) = inr AwaitingInput).
Proof.
  split; [apply chatTurn_whitespace |].
  split; [apply chatTurn_exit |].
  split.
  { intros tr n' e Hws Hexit Hask. rewrite chatTurn_dispatch by done. by rewrite Hask. }
  rewrite chatLoop_outcome.
  destruct (chatLoop_from_outcome net stdin n) as [[Hex Hout] | [Hex Hout]];
    rewrite Hout; split; try done.
Qed.

End LoopProperties.

(** * The entry point *)

Lemma filter_indexed_cons {A : Type} (keep : A -> Z -> bool) (i0 : Z) (a : A) (rest : list A) :
  filter_indexed keep i0 (a :: rest) =
  if keep a i0 then a :: filter_indexed keep (i0 + 1)%Z rest
  else filter_indexed keep (i0 + 1)%Z rest.
Proof. done. Qed.

Lemma filter_last_only (l : list string) (i0 n : Z) :
  n = (i0 + Z.of_nat (List.length l) - 1)%Z ->
  head (filter_indexed (fun a i => (i =? n)%Z && negb (startsWith a "-")) i0 l) =
  match last l with
  | Some a => if startsWith a "-" then None else Some a
  | None => None
  end.
Proof.
  revert i0. induction l as [| a [| b l] IH]; intros i0 Hn.
  - done.
  - simpl in *. replace (i0 =? n)%Z with true by lia.
    by destruct (startsWith a "-").
  - rewrite filter_indexed_cons.
    replace (i0 =? n)%Z with false by (simpl in Hn; lia).
    cbn [andb]. rewrite IH by (simpl in *; lia). done.
Qed.

(** [PROMPT] is the last argument unless that begins with a dash. *)
Lemma PROMPT_last (args : list string) :
  PROMPT args =
  match last args with
  | Some a => if startsWith a "-" then None else Some a
  | None => None
  end.
Proof. unfold PROMPT. apply filter_last_only. lia. Qed.

Lemma dispatched_prompt_last (args : list string) (a : string) :
  INTERACTIVE args = false ->
  last args = Some a ->
  dispatched_prompt args = Some a <-> startsWith a "-" = false /\ a <> "".
Proof.
  intros Hi Hlast. unfold dispatched_prompt. rewrite Hi, PROMPT_last, Hlast.
  destruct (startsWith a "-"); simpl.
  { split; [discriminate | by intros [? _]]. }
  destruct a; simpl; (split; [by intros ? | intros [_ Hne]]); [by destruct Hne | done].
Qed.

Section EntryProperties.

Variable env : gmap string string.
Variable response_text : value -> JsError + value.

(** One-shot mode prints the usage or dispatches [dispatched_prompt]. *)
Lemma main_one_shot (args stdin : list string) :
  INTERACTIVE args = false ->
  main env response_text args stdin =
  match dispatched_prompt args with
  | None => console_log USAGE
  | Some prompt => one_shot env response_text (PROVIDER args) prompt (MODEL args)
  end.
Proof. intros Hi. unfold main, dispatched_prompt. by rewrite Hi. Qed.

(** C9, as the program has it.  In one-shot mode the prompt handed to the
    router is the last argument exactly when that argument is not empty and
    does not begin with a dash, be it the value of a flag or not; then the
    program is the dispatch of that argument, and in every other case it
    only prints the usage. *)
Theorem prompt_is_last_undashed (args stdin : list string) (a : string) :
  INTERACTIVE args = false ->
  last args = Some a ->
  (dispatched_prompt args = Some a <-> startsWith a "-" = false /\ a <> "") /\
  main env response_text args stdin =
    if negb (startsWith a "-") && truthy a
    then one_shot env response_text (PROVIDER args) a (MODEL args)
    else console_log USAGE.
Proof.
  intros Hi Hlast. split; [by apply dispatched_prompt_last |].
  rewrite main_one_shot by done.
  unfold dispatched_prompt. rewrite Hi, PROMPT_last, Hlast.
  destruct (startsWith a "-"); [done |]. by destruct a.
Qed.


End EntryProperties.

(** * Further properties of the command line *)

Lemma indexOf_absent (l : list string) (x : string) :
  x ∉ l -> indexOf l x = (-1)%Z.
Proof.
  induction l as [| y l IH]; [done |].
  intros Hx. apply not_elem_of_cons in Hx as [Hne Hx]. simpl.
  destruct (String.eqb_spec y x) as [-> | _]; [done |]. by rewrite IH.
Qed.

Lemma indexOf_first (front rest : list string) (x : string) :
  x ∉ front -> indexOf (front ++ x :: rest) x = Z.of_nat (List.length front).
Proof.
  induction front as [| y front IH]; intros Hx.
  - simpl. by rewrite String.eqb_refl.
  - apply not_elem_of_cons in Hx as [Hne Hx].
    cbn [app indexOf List.length]. rewrite (IH Hx).
    destruct (String.eqb_spec y x) as [-> | _]; [done |].
    replace (Z.of_nat (List.length front) <? 0)%Z with false by lia. lia.
Qed.

Lemma getArg_absent (args : list string) (flag : string) (fallback : option string) :
  flag ∉ args -> getArg args flag fallback = fallback.
Proof. intros Hflag. unfold getArg. by rewrite indexOf_absent. Qed.

Lemma getArg_first (front rest : list string) (flag v : string)
      (fallback : option string) :
  flag ∉ front ->
  getArg (front ++ flag :: v :: rest) flag fallback = if truthy v then Some v else None.
Proof.
  intros Hflag. unfold getArg. rewrite indexOf_first by done. cbv zeta.
  rewrite (proj2 (Z.leb_le _ _)) by lia.
  replace (Z.to_nat (Z.of_nat (List.length front) + 1)) with (S (List.length front)) by lia.
  rewrite lookup_app_r by lia.
  replace (S (List.length front) - List.length front) with 1 by lia.
  simpl. unfold or_else, nonempty. by destruct (truthy v).
Qed.

(** [getArg] reads the argument after the first occurrence of the flag,
    whatever that argument is; an empty one counts as none. *)
Theorem getArg_first_occurrence (front rest : list string) (flag v : string)
        (fallback : option string) :
  flag ∉ front ->
  getArg (front ++ flag :: v :: rest) flag fallback = if truthy v then Some v else None.
Proof. apply getArg_first. Qed.

(** Without the flag [getArg] gives the fallback; with the flag as the
    last argument it gives [null], not the fallback. *)
Theorem getArg_absent_or_trailing (front : list string) (flag : string)
        (fallback : option string) :
  flag ∉ front ->
  getArg front flag fallback = fallback /\
  getArg (front ++ [flag]) flag fallback = None.
Proof.
  intros Hflag. split; [by apply getArg_absent |].
  unfold getArg. rewrite indexOf_first by done. cbv zeta.
  rewrite (proj2 (Z.leb_le _ _)) by lia.
  rewrite lookup_ge_None_2; [done |]. rewrite length_app. simpl. lia.
Qed.

Lemma lowerChar_idempotent (c : ascii) : lowerChar (lowerChar c) = lowerChar c.
Proof.
  destruct (isUpper c) eqn:Hup.
  - assert (isUpper (lowerChar c) = false) as Hlow.
    { destruct (isUpper (lowerChar c)) eqn:Hup'; [| done].
      apply isUpper_spec in Hup'. rewrite code_lowerChar in Hup' by done.
      apply isUpper_spec in Hup. lia. }
    unfold lowerChar at 1. by rewrite Hlow.
  - unfold lowerChar. by rewrite !Hup.
Qed.

Lemma toLowerCase_idempotent (s : string) : toLowerCase (toLowerCase s) = toLowerCase s.
Proof. induction s as [| c s IH]; simpl; [done |]. by rewrite lowerChar_idempotent, IH. Qed.

Lemma truthy_toLowerCase (s : string) : truthy (toLowerCase s) = truthy s.
Proof. by destruct s. Qed.

Lemma or_default_truthy (a : option string) (d : string) :
  truthy d = true -> truthy (or_default a d) = true.
Proof.
  intros Hd. unfold or_default, nonempty.
  destruct a as [s |]; [| done]. by destruct (truthy s) eqn:Hs.
Qed.

(** The provider key handed to the router is never empty and has no
    upper-case letter left, whatever the command line. *)
Theorem PROVIDER_lowercase_nonempty (args : list string) :
  PROVIDER args <> "" /\ toLowerCase (PROVIDER args) = PROVIDER args.
Proof.
  unfold PROVIDER. split; [| apply toLowerCase_idempotent].
  intros Hempty.
  assert (truthy (toLowerCase
            (or_default (or_else (getArg args "-p" None) (getArg args "--provider" None))
                        "gemini")) = true) as Ht
    by (rewrite truthy_toLowerCase; by apply or_default_truthy).
  by rewrite Hempty in Ht.
Qed.

(** With neither [-p] nor [--provider] on the command line the provider is
    gemini. *)
Theorem PROVIDER_default_gemini (args : list string) :
  "-p" ∉ args -> "--provider" ∉ args -> PROVIDER args = "gemini".
Proof.
  intros Hp Hprovider. unfold PROVIDER.
  by rewrite !getArg_absent.
Qed.


(** The model override is the value of the first [-m] when that is not
    empty, and there is none when neither [-m] nor [--model] is given. *)
Theorem MODEL_from_flags (front rest : list string) (m : string) :
  "-m" ∉ front ->
  (m <> "" -> MODEL (front ++ "-m" :: m :: rest) = Some m) /\
  ("--model" ∉ front -> MODEL front = None).
Proof.
  intros Hm. unfold MODEL. split.
  - intros Hne. rewrite getArg_first by done. by destruct m.
  - intros Hmodel. by rewrite !getArg_absent.
Qed.

(** * Further properties of the router *)

Lemma silent_bind {A B : Type} (p : Prog A) (f : A -> Prog B) :
  silent p -> (forall a, silent (f a)) -> silent (bind p f).
Proof. destruct p; simpl; first [done | auto]. Qed.

Lemma silent_run {A : Type} (p : Prog A) (net : nat -> SdkCall -> Reply) (n : nat) :
  silent p -> exists r, run net n p = ([], n, r).
Proof. destruct p; simpl; try done; eauto. Qed.

Lemma get_silent (o : value) (name : string) : silent (get o name).
Proof. by destruct o. Qed.

Lemma first_silent (o : value) : silent (first o).
Proof. destruct o as [| | | | [] | |]; done. Qed.

Lemma opt_silent (o : value) (rest : value -> Prog value) :
  (forall v, silent (rest v)) -> silent (opt o rest).
Proof. intros Hrest. unfold opt. destruct (nullish o); [done | apply Hrest]. Qed.

Lemma mapM_silent {A B : Type} (f : A -> Prog B) (l : list A) :
  (forall x, silent (f x)) -> silent (mapM f l).
Proof.
  intros Hf. induction l as [| x l IH]; [done |].
  cbn [mapM]. apply silent_bind; [apply Hf |].
  intros y. by apply silent_bind.
Qed.

Lemma openai_text_silent (res : value) : silent (openai_text res).
Proof.
  unfold openai_text.
  apply silent_bind; [apply get_silent |]. intros choices.
  apply silent_bind; [| done].
  apply opt_silent. intros c. apply silent_bind; [apply first_silent |]. intros item.
  apply opt_silent. intros it. apply silent_bind; [apply get_silent |]. intros msg.
  apply opt_silent. intros m. apply get_silent.
Qed.

Lemma claude_text_silent (res : value) : silent (claude_text res).
Proof.
  unfold claude_text.
  apply silent_bind; [apply get_silent |]. intros blocks.
  apply silent_bind; [| done].
  apply opt_silent. intros bs. apply silent_bind; [| done].
  destruct bs; try done. apply mapM_silent.
  intros b. apply silent_bind; [apply get_silent | done].
Qed.

Section RouterCalls.

Variable env : gmap string string.
Variable response_text : value -> JsError + value.

(** [ask] by the credential of the key: the missing-credential throw, or
    one await of the request of the key, resumed by a silent normalizer that
    rethrows a rejection. *)
Lemma ask_by_credential (k prompt : string) (model : option string) :
  match nonempty (env !! documented_credential k) with
  | None =>
      ask env response_text k prompt model =
        Throw (Error ("Missing " +:+ documented_credential k))
  | Some key =>
      exists resume,
        ask env response_text k prompt model =
          Await (sdk_request k key prompt model) resume /\
        (forall e, resume (inl e) = Throw e) /\
        (forall r, silent (resume r))
  end.
Proof.
  unfold ask, documented_credential, sdk_request, documented_default_model.
  repeat match goal with
         | |- context [String.eqb k ?lit] => destruct (String.eqb k lit)
         end;
    unfold callGemini, callClaude, callPerplexity, callDeepSeek, callGrok, callOpenAI;
    cbn [default_param];
    match goal with
    | |- context [nonempty ?o] => destruct (nonempty o) as [key |]
    end; try done;
    (eexists; split; [reflexivity | split; [done |]]);
    intros [e | v]; simpl; try done;
    first [apply openai_text_silent | apply claude_text_silent
          | by destruct (response_text v)].
Qed.

(** With its credential there, every key, recognised or not, is dispatched
    as one await of the request of that key: the Gemini call gets the bare
    prompt, the Claude call the token ceiling 1024 and the single user
    message, the OpenAI-compatible calls their base URL. *)
Theorem ask_request_per_provider (k prompt key : string) (model : option string) :
  nonempty (env !! documented_credential k) = Some key ->
  exists resume,
    ask env response_text k prompt model = Await (sdk_request k key prompt model) resume.
Proof.
  intros Hkey. pose proof (ask_by_credential k prompt model) as H.
  rewrite Hkey in H. destruct H as (resume & Hask & _). eauto.
Qed.

(** A model override that is not empty reaches the SDK call unchanged,
    for every key. *)
Theorem ask_model_override_verbatim (k prompt key m : string) :
  m <> "" ->
  nonempty (env !! documented_credential k) = Some key ->
  exists call resume,
    ask env response_text k prompt (Some m) = Await call resume /\
    call_model call = m.
Proof.
  intros Hm Hkey. pose proof (ask_by_credential k prompt (Some m)) as H.
  rewrite Hkey in H. destruct H as (resume & Hask & _).
  exists (sdk_request k key prompt (Some m)), resume. split; [done |].
  unfold sdk_request, or_default, nonempty. destruct m; [done |]. simpl.
  repeat case_match; done.
Qed.

(** A credential variable set to the empty string counts as missing:
    dispatch throws the same error and calls nothing. *)
Theorem ask_empty_credential_missing (k prompt : string) (model : option string) :
  env !! documented_credential k = Some "" ->
  ask env response_text k prompt model =
    Throw (Error ("Missing " +:+ documented_credential k)).
Proof.
  intros Hkey. pose proof (ask_by_credential k prompt model) as H.
  by rewrite Hkey in H.
Qed.

(** One dispatch makes at most one SDK call and writes nothing: its trace
    is empty or the single call. *)
Theorem ask_at_most_one_call (k prompt : string) (model : option string)
        (net : nat -> SdkCall -> Reply) (n : nat) :
  (exists e, run net n (ask env response_text k prompt model) = ([], n, inl e)) \/
  (exists c r, run net n (ask env response_text k prompt model) = ([Called c], S n, r)).
Proof.
  pose proof (ask_by_credential k prompt model) as H.
  destruct (nonempty (env !! documented_credential k)) as [key |].
  - right. destruct H as (resume & -> & _ & Hsilent). simpl.
    destruct (silent_run (resume (net n (sdk_request k key prompt model))) net (S n)
                (Hsilent _)) as [r ->]. eauto.
  - left. rewrite H. simpl. eauto.
Qed.

Lemma sdk_request_authorised (k key prompt : string) (model : option string) :
  nonempty (env !! documented_credential k) = Some key ->
  call_authorised env (sdk_request k key prompt model).
Proof.
  unfold documented_credential, sdk_request.
  repeat match goal with
         | |- context [String.eqb k ?lit] => destruct (String.eqb k lit)
         end; simpl; tauto.
Qed.

(** A rejected call is rethrown as it is: the dispatch fails with the very
    error of the transport, after that one call. *)
Theorem ask_transport_failure (k prompt key : string) (model : option string)
        (net : nat -> SdkCall -> Reply) (n : nat) (e : JsError) :
  nonempty (env !! documented_credential k) = Some key ->
  net n (sdk_request k key prompt model) = inl e ->
  run net n (ask env response_text k prompt model) =
    ([Called (sdk_request k key prompt model)], S n, inl e).
Proof.
  intros Hkey Hnet. pose proof (ask_by_credential k prompt model) as H.
  rewrite Hkey in H. destruct H as (resume & -> & Hthrow & _).
  simpl. by rewrite Hnet, Hthrow.
Qed.

(** The Gemini dispatch is one call with the bare prompt; its result is
    what the text accessor of the SDK gives on the reply, an error thrown by
    the accessor included, and a rejection is passed on. *)
Theorem ask_gemini_reply (prompt key : string) (model : option string)
        (net : nat -> SdkCall -> Reply) (n : nat) :
  nonempty (env !! "GOOGLE_API_KEY") = Some key ->
  run net n (ask env response_text "gemini" prompt model) =
    ([Called (GenerateContent key (or_default model "gemini-1.5-flash") prompt)], S n,
     match net n (GenerateContent key (or_default model "gemini-1.5-flash") prompt) with
     | inl e => inl e
     | inr result => response_text result
     end).
Proof.
  intros Hkey. unfold ask, callGemini. cbn [String.eqb Ascii.eqb Bool.eqb default_param].
  rewrite Hkey. cbn [await bind run DEFAULTS gemini].
  destruct (net n _) as [e | result]; [done |].
  cbn [bind]. by destruct (response_text result).
Qed.

End RouterCalls.

(** * Further properties of the claude normalizer *)

Lemma trimEnd_idempotent (s : string) : trimEnd (trimEnd s) = trimEnd s.
Proof.
  induction s as [| c s IH]; [done |]. simpl.
  destruct (trimEnd s) as [| d kept] eqn:Hkept.
  - destruct (isWhiteSpace c) eqn:Hc; [done |]. simpl. by rewrite Hc.
  - cbn [trimEnd] in *. by rewrite IH.
Qed.

Lemma trimStart_head (s : string) :
  trimStart s = "" \/ exists c rest, trimStart s = String c rest /\ isWhiteSpace c = false.
Proof.
  induction s as [| c s IH]; [by left |]. simpl.
  destruct (isWhiteSpace c) eqn:Hc; [done |]. right. eauto.
Qed.

Lemma trim_idempotent (s : string) : trim (trim s) = trim s.
Proof.
  unfold trim. destruct (trimStart_head s) as [-> | (c & rest & -> & Hc)]; [done |].
  assert (exists kept, trimEnd (String c rest) = String c kept) as [kept Hkept].
  { simpl. destruct (trimEnd rest); rewrite ?Hc; eauto. }
  rewrite Hkept. cbn [trimStart]. rewrite Hc, <- Hkept. apply trimEnd_idempotent.
Qed.

(** Whatever the payload, when the claude normalizer returns it returns a
    string without whitespace at either end. *)
Theorem claude_text_returns_trimmed_string (res v : value) :
  claude_text res = Ret v -> exists s, v = VStr s /\ trim s = s.
Proof.
  unfold claude_text. destruct (get res "content") as [blocks | | | | | |] eqn:Hget;
    try done.
  cbn [bind]. unfold opt. destruct (nullish blocks).
  { cbn [bind]. intros [= <-]. by exists "". }
  destruct (array_map blocks _) as [texts | | | | | |]; try done.
  cbn [bind]. rewrite vor_string. intros [= <-].
  eexists. split; [done | apply trim_idempotent].
Qed.

Lemma mapM_nullish_throws (f : value -> Prog value) (items : list value) :
  (forall b, nullish b = true -> exists e, f b = Throw e) ->
  (forall b, silent (f b)) ->
  Exists (fun b => nullish b = true) items ->
  exists e, mapM f items = Throw e.
Proof.
  intros Hnull Hsilent. induction 1 as [b items Hb | b items _ IH]; cbn [mapM].
  - destruct (Hnull b Hb) as [e ->]. by exists e.
  - specialize (Hsilent b). destruct (f b); try done; [| eauto].
    destruct IH as [e ->]. by exists e.
Qed.

(** The claude normalizer on payloads that are not a block sequence: no
    content ([null], [undefined] or missing) gives the empty string; a
    content that is not an array, or an array holding a [null] or
    [undefined] block, makes it throw. *)
Theorem claude_text_malformed (props : list (string * value)) :
  (field "content" (VObj props) = None -> claude_text (VObj props) = Ret (VStr "")) /\
  (forall c, lookup_prop "content" props = Some c -> nullish c = false ->
             (forall items, c <> VArr items) ->
             exists e, claude_text (VObj props) = Throw e) /\
  (forall items, lookup_prop "content" props = Some (VArr items) ->
                 Exists (fun b => nullish b = true) items ->
                 exists e, claude_text (VObj props) = Throw e).
Proof.
  unfold claude_text, field, present. cbn [get bind]. repeat split.
  - destruct (lookup_prop "content" props) as [c |]; [| done].
    simpl. unfold opt. by destruct (nullish c).
  - intros c -> Hc Harr. simpl. unfold opt. rewrite Hc.
    destruct c; try done; simpl; eauto. by destruct (Harr items).
  - intros items -> Hitems. simpl. unfold opt, array_map. cbn [nullish].
    destruct (mapM_nullish_throws
                (fun b => t <- get b "text" ;; Ret (vor t (VStr ""))) items) as [e He];
      [| | done |].
    + intros b Hb. destruct b; try done; simpl; eauto.
    + intros b. apply silent_bind; [apply get_silent | done].
    + rewrite He. simpl. eauto.
Qed.

(** * Further properties of the loop and of the entry point *)

Section ProgramRuns.

Variable env : gmap string string.
Variable response_text : value -> JsError + value.

Lemma ask_run_shape (k prompt : string) (model : option string)
      (net : nat -> SdkCall -> Reply) (n : nat) :
  exists tr n' r,
    run net n (ask env response_text k prompt model) = (tr, n', r) /\
    n <= n' <= S n /\ Forall (authorised_event env) tr.
Proof.
  pose proof (ask_by_credential env response_text k prompt model) as H.
  destruct (nonempty (env !! documented_credential k)) as [key |] eqn:Hkey.
  - destruct H as (resume & -> & _ & Hsilent). simpl.
    destruct (silent_run (resume (net n (sdk_request k key prompt model))) net (S n)
                (Hsilent _)) as [r ->].
    eexists _, _, _. split; [done |]. split; [lia |].
    apply Forall_cons. split; [by apply sdk_request_authorised | done].
  - rewrite H. simpl. eexists _, _, _. split; [done |]. split; [lia | done].
Qed.

Lemma ask_openai_compatible (k prompt key : string) (model : option string) :
  k ∉ ["gemini"; "claude"] ->
  nonempty (env !! documented_credential k) = Some key ->
  ask env response_text k prompt model =
    Await (sdk_request k key prompt model) (fun r => bind (of_result r) openai_text).
Proof.
  intros Hk.
  assert (String.eqb k "gemini" = false) as Hg.
  { apply String.eqb_neq. intros ->. apply Hk. rewrite !elem_of_cons. tauto. }
  assert (String.eqb k "claude" = false) as Hc.
  { apply String.eqb_neq. intros ->. apply Hk. rewrite !elem_of_cons. tauto. }
  unfold ask, documented_credential, sdk_request, documented_default_model.
  rewrite Hg, Hc.
  repeat match goal with
         | |- context [String.eqb k ?lit] => destruct (String.eqb k lit)
         end;
    intros Hkey; unfold callPerplexity, callDeepSeek, callGrok;
    cbn [default_param]; rewrite Hkey; apply callOpenAI_request.
Qed.

Variable provider : string.
Variable model : option string.

Lemma chatTurn_run_shape (q : string) (net : nat -> SdkCall -> Reply) (n : nat) :
  exists tr n' c,
    run net n (chatTurn env response_text provider model q) = (tr, n', inr c) /\
    n <= n' <= n + (if all_whitespace q then 0 else 1) /\
    Forall (authorised_event env) tr.
Proof.
  destruct (all_whitespace q) eqn:Hws.
  { rewrite chatTurn_whitespace by done. eexists _, _, _. simpl.
    split; [done |]. split; [lia | done]. }
  destruct (String.eqb_spec (toLowerCase (trim q)) "/exit") as [Hq%exit_sentinel_iff | Hq].
  { rewrite chatTurn_exit by done. eexists _, _, _. simpl.
    split; [done |]. split; [lia | done]. }
  rewrite chatTurn_dispatch by (done || by intros ?%exit_sentinel_iff).
  destruct (ask_run_shape provider q model net n) as (tr & n' & r & -> & Hn & Htr).
  eexists _, _, _. split; [done |]. split; [lia |].
  apply Forall_app. split; [done |]. apply Forall_cons. split; [| done]. by destruct r.
Qed.

Lemma run_chatLoop_from_cons (q : string) (rest : list string)
      (net : nat -> SdkCall -> Reply) (n : nat) :
  run net n (chatLoop_from env response_text provider model (q :: rest)) =
  let '(tr, n', r) := run net n (chatTurn env response_text provider model q) in
  match r with
  | inl e => (Asked "You > " :: tr, n', inl e)
  | inr Continue =>
      let '(tr2, n2, r2) :=
        run net n' (chatLoop_from env response_text provider model rest) in
      (Asked "You > " :: tr ++ tr2, n2, r2)
  | inr Break => (Asked "You > " :: tr, n', inr Terminated)
  end.
Proof.
  cbn [chatLoop_from run]. rewrite run_bind.
  destruct (run net n (chatTurn env response_text provider model q))
    as [[tr n'] [e | [|]]]; simpl; [done | | by rewrite app_nil_r].
  by destruct (run net n' (chatLoop_from env response_text provider model rest))
    as [[tr2 n2] r2].
Qed.

Lemma run_chatLoop (stdin : list string) (net : nat -> SdkCall -> Reply) (n : nat) :
  run net n (chatLoop env response_text provider model stdin) =
  let '(tr, n', r) := run net n (chatLoop_from env response_text provider model stdin) in
  (Logged (banner provider model) :: Logged ("Type '/exit' to quit." +:+ LF)
     :: tr ++ match r with inr Terminated => [Closed] | _ => [] end, n', r).
Proof.
  unfold chatLoop, console_log, rl_close. cbn [bind run]. rewrite run_bind.
  destruct (run net n (chatLoop_from env response_text provider model stdin))
    as [[tr n'] [e | [|]]]; simpl; by rewrite ?app_nil_r.
Qed.


Lemma chatLoop_from_after_exit (pre post : list string) (q : string)
      (net : nat -> SdkCall -> Reply) (n : nat) :
  exit_sentinel q ->
  run net n (chatLoop_from env response_text provider model (pre ++ q :: post)) =
  run net n (chatLoop_from env response_text provider model (pre ++ [q])).
Proof.
  intros Hq. revert n. induction pre as [| x pre IH]; intros n.
  - cbn [app]. rewrite !run_chatLoop_from_cons. by rewrite chatTurn_exit.
  - cbn [app]. rewrite !run_chatLoop_from_cons.
    destruct (run net n (chatTurn env response_text provider model x))
      as [[tr n'] [e | [|]]]; [done | | done].
    by rewrite IH.
Qed.

(** Nothing typed after the exit sentinel matters: the session runs as if
    the input ended there. *)
Theorem chatLoop_stops_at_exit (pre post : list string) (q : string)
        (net : nat -> SdkCall -> Reply) (n : nat) :
  exit_sentinel q ->
  run net n (chatLoop env response_text provider model (pre ++ q :: post)) =
  run net n (chatLoop env response_text provider model (pre ++ [q])).
Proof. intros Hq. rewrite !run_chatLoop. by rewrite chatLoop_from_after_exit. Qed.

Lemma chatLoop_from_shape (stdin : list string) (net : nat -> SdkCall -> Reply) (n : nat) :
  exists tr n' st,
    run net n (chatLoop_from env response_text provider model stdin) = (tr, n', inr st) /\
    n <= n' <= n + List.length (nonblank_lines stdin) /\
    Forall (authorised_event env) tr.
Proof.
  revert n. induction stdin as [| q stdin IH]; intros n.
  { simpl. eexists _, _, _. split; [done |]. split; [lia |].
    apply Forall_cons. by split. }
  rewrite run_chatLoop_from_cons.
  destruct (chatTurn_run_shape q net n) as (tr & n' & c & -> & Hn & Htr).
  assert (List.length (nonblank_lines (q :: stdin)) =
          (if all_whitespace q then 0 else 1) + List.length (nonblank_lines stdin)) as Hlen
    by (unfold nonblank_lines; simpl; by destruct (all_whitespace q)).
  destruct c.
  - destruct (IH n') as (tr2 & n2 & st & -> & Hn2 & Htr2).
    eexists _, _, _. split; [done |]. split; [lia |].
    apply Forall_cons. split; [done |]. apply Forall_app. by split.
  - eexists _, _, _. split; [done |]. split; [lia |].
    apply Forall_cons. by split.
Qed.

(** A session makes at most one SDK call per line that is not blank. *)
Theorem chatLoop_calls_bounded (stdin : list string) (net : nat -> SdkCall -> Reply)
        (n : nat) :
  call_count (run net n (chatLoop env response_text provider model stdin))
  <= n + List.length (nonblank_lines stdin).
Proof.
  rewrite run_chatLoop.
  destruct (chatLoop_from_shape stdin net n) as (tr & n' & st & -> & Hn & _).
  unfold call_count. simpl. lia.
Qed.

End ProgramRuns.

Section EntryRuns.

Variable env : gmap string string.
Variable response_text : value -> JsError + value.

Lemma main_run_shape (args stdin : list string) (net : nat -> SdkCall -> Reply) (n : nat) :
  exists tr n',
    run net n (main env response_text args stdin) = (tr, n', inr tt) /\
    Forall (authorised_event env) tr.
Proof.
  unfold main. destruct (INTERACTIVE args).
  - rewrite run_bind, run_chatLoop.
    destruct (chatLoop_from_shape env response_text (PROVIDER args) (MODEL args)
                stdin net n) as (tr & n' & st & -> & _ & Htr).
    simpl. eexists _, _. split; [done |].
    rewrite app_nil_r. do 2 (apply Forall_cons; split; [done |]).
    apply Forall_app. split; [done |]. by destruct st; [| apply Forall_cons].
  - destruct (nonempty (PROMPT args)) as [prompt |].
    + rewrite run_try_catch, run_bind.
      destruct (ask_run_shape env response_text (PROVIDER args) prompt (MODEL args) net n)
        as (tr & n' & r & -> & _ & Htr).
      destruct r as [e | ans]; simpl; eexists _, _; (split; [done |]);
        apply Forall_app; (split; [done |]); by apply Forall_cons.
    + simpl. eexists _, _. split; [done |]. by apply Forall_cons.
Qed.

(** One-shot mode never ends on an uncaught error: whatever the command
    line, the environment and the network do, the error of a dispatch is
    caught and [main] returns. *)
Theorem main_one_shot_never_throws (args stdin : list string)
        (net : nat -> SdkCall -> Reply) (n : nat) :
  INTERACTIVE args = false ->
  outcome (run net n (main env response_text args stdin)) = inr tt.
Proof.
  intros Hi. rewrite main_one_shot by done.
  destruct (dispatched_prompt args) as [prompt |]; [| done].
  unfold one_shot. rewrite run_try_catch, run_bind.
  destruct (run net n (ask env response_text (PROVIDER args) prompt (MODEL args)))
    as [[tr n'] [e | ans]]; done.
Qed.

(** In either mode every SDK call of the program carries the credential
    of the endpoint it goes to and no other. *)
Theorem main_calls_authorised (args stdin : list string) (net : nat -> SdkCall -> Reply)
        (n : nat) :
  Forall (authorised_event env) (trace (run net n (main env response_text args stdin))).
Proof. by destruct (main_run_shape args stdin net n) as (tr & n' & -> & Htr). Qed.

(** One-shot mode with a prompt but without the credential of the chosen
    provider prints the missing-credential message on the error stream and
    nothing else; no call is made. *)
Theorem main_missing_credential (args stdin : list string) (prompt : string)
        (net : nat -> SdkCall -> Reply) (n : nat) :
  INTERACTIVE args = false ->
  dispatched_prompt args = Some prompt ->
  nonempty (env !! documented_credential (PROVIDER args)) = None ->
  run net n (main env response_text args stdin) =
    ([LoggedError ("Error: Missing " +:+ documented_credential (PROVIDER args))], n, inr tt).
Proof.
  intros Hi Hprompt Hkey. rewrite main_one_shot, Hprompt by done.
  unfold one_shot. rewrite run_try_catch, run_bind.
  pose proof (ask_by_credential env response_text (PROVIDER args) prompt (MODEL args)) as H.
  rewrite Hkey in H. by rewrite H.
Qed.

(** One-shot mode on an OpenAI-compatible provider whose reply holds a
    string at [choices[0].message.content]: one call, then that string
    printed under the [Prin] heading. *)
Theorem main_prints_answer (args stdin : list string) (prompt key s : string)
        (res : value) (net : nat -> SdkCall -> Reply) (n : nat) :
  INTERACTIVE args = false ->
  dispatched_prompt args = Some prompt ->
  PROVIDER args ∉ ["gemini"; "claude"] ->
  nonempty (env !! documented_credential (PROVIDER args)) = Some key ->
  net n (sdk_request (PROVIDER args) key prompt (MODEL args)) = inr res ->
  content_path res = Some (VStr s) ->
  run net n (main env response_text args stdin) =
    ([Called (sdk_request (PROVIDER args) key prompt (MODEL args));
      Logged (LF +:+ "=== Prin ===" +:+ LF +:+ s +:+ LF)], S n, inr tt).
Proof.
  intros Hi Hprompt Hk Hkey Hnet Hpath. rewrite main_one_shot, Hprompt by done.
  unfold one_shot. rewrite run_try_catch, run_bind.
  rewrite (ask_openai_compatible env response_text (PROVIDER args) prompt key (MODEL args))
    by done.
  cbn [run]. rewrite Hnet. cbn [of_result bind].
  assert (nullish res = false) as Hres by (by destruct res).
  destruct (openai_text_of_path res Hres) as (v & -> & _ & Hv).
  rewrite (Hv _ Hpath), vor_string. done.
Qed.

End EntryRuns.

(** * Concrete instances *)

Ltac solve_casing :=
  simpl; repeat split; first [by left | right; unfold code; simpl; lia].

Lemma ask_unrecognized_as_openai_witness :
  let env : gmap string string := {[ "OPENAI_API_KEY" := "sk" ]} in
  ask env sample_text "foo" "hi" None = ask env sample_text "openai" "hi" None /\
  ask env sample_text "" "hi" None = ask env sample_text "openai" "hi" None /\
  ask env sample_text "chatgpt" "hi" None = ask env sample_text "openai" "hi" None.
Proof.
  intros env. split; [| split].
  - apply (ask_unrecognized_as_openai env sample_text "foo" "hi" None). left. not_in_keys.
  - apply (ask_unrecognized_as_openai env sample_text "" "hi" None). left. not_in_keys.
  - apply (ask_unrecognized_as_openai env sample_text "chatgpt" "hi" None). by right.
Defined.

Lemma ask_missing_credential_witness :
  ask ∅ sample_text "claude" "hi" None = Throw (Error "Missing ANTHROPIC_API_KEY") /\
  run unreachable_net 0 (ask ∅ sample_text "claude" "hi" None) =
    ([], 0, inl (Error "Missing ANTHROPIC_API_KEY")).
Proof.
  assert ("claude" ∈ provider_keys) as Hin by in_keys.
  assert ((∅ : gmap string string) !! documented_credential "claude" = None) as Hnone
    by apply lookup_empty.
  split.
  - exact (proj1 (ask_missing_credential ∅ sample_text "claude" "hi" None Hin Hnone)).
  - exact (proj2 (ask_missing_credential ∅ sample_text "claude" "hi" None Hin Hnone)
             unreachable_net 0).
Defined.

Lemma dispatch_case_insensitive_witness :
  PROVIDER ["-p"; "GeMiNi"; "hi"] = "gemini" /\
  ask ∅ sample_text (PROVIDER ["-p"; "GeMiNi"; "hi"]) "hi" None =
    ask ∅ sample_text "gemini" "hi" None.
Proof.
  apply (dispatch_case_insensitive ∅ sample_text ["-p"; "GeMiNi"; "hi"] "GeMiNi" "gemini").
  - in_keys.
  - solve_casing.
  - reflexivity.
Defined.

Lemma ask_default_model_witness :
  let env : gmap string string := {[ "XAI_API_KEY" := "x" ]} in
  ask env sample_text "grok" "hi" None =
    ask env sample_text "grok" "hi" (Some "grok-2-latest") /\
  exists call resume,
    ask env sample_text "grok" "hi" None = Await call resume /\
    call_model call = "grok-2-latest".
Proof.
  intros env.
  apply (ask_default_model env sample_text "grok" "hi" "x").
  - in_keys.
  - reflexivity.
Defined.

Lemma openai_text_spec_witness :
  openai_text
    (VObj [("id", VStr "cmpl-1");
           ("choices", VArr [VObj [("index", VNum true "0");
                                   ("message", VObj [("role", VStr "assistant");
                                                     ("content", VStr "hi")])]])])
  = Ret (VStr "hi") /\
  openai_text (VObj [("id", VStr "cmpl-1"); ("choices", VArr [])]) = Ret (VStr "").
Proof.
  split.
  - refine (proj2 (proj2 (proj2 (proj2 (openai_text_spec _ _)))) "hi" _); reflexivity.
  - refine (proj1 (proj2 (proj2 (proj2 (openai_text_spec _ _)))) _); reflexivity.
Defined.

Lemma claude_text_spec_witness :
  claude_text
    (VObj [("role", VStr "assistant");
           ("content", VArr [VObj [("type", VStr "text"); ("text", VStr " a")];
                             VObj [("type", VStr "tool_use")];
                             VObj [("type", VStr "text"); ("text", VStr "b ")]])])
  = Ret (VStr "ab").
Proof.
  refine (proj1 (claude_text_spec
                   [("role", VStr "assistant"); ("content", VArr _)]
                   [[("type", VStr "text"); ("text", VStr " a")];
                    [("type", VStr "tool_use")];
                    [("type", VStr "text"); ("text", VStr "b ")]] _ _)).
  - reflexivity.
  - apply List.Forall_cons; [right; by eexists |].
    apply List.Forall_cons; [by left |].
    apply List.Forall_cons; [right; by eexists |].
    apply List.Forall_nil.
Defined.

Lemma openai_compatible_single_user_message_witness :
  let env : gmap string string := {[ "PPLX_API_KEY" := "p" ]} in
  exists url mdl resume,
    ask env sample_text "perplexity" "why is the sky blue?" (Some "sonar-reasoning") =
      Await (ChatCompletionsCreate "p" url mdl
               [{| role := "user"; content := "why is the sky blue?" |}])
            resume.
Proof.
  intros env.
  apply (openai_compatible_single_user_message env sample_text "perplexity"
           "why is the sky blue?" "p" (Some "sonar-reasoning")).
  - rewrite !elem_of_cons. tauto.
  - reflexivity.
Defined.

Lemma chatLoop_step_spec_witness :
  chatTurn ∅ sample_text "openai" None "  " = Ret Continue /\
  chatTurn ∅ sample_text "openai" None "/EXIT" = Ret Break /\
  run unreachable_net 0 (chatTurn ∅ sample_text "openai" None "hello") =
    ([LoggedError "Error: Missing OPENAI_API_KEY"], 0, inr Continue) /\
  outcome (run unreachable_net 0 (chatLoop ∅ sample_text "openai" None ["hello"; " /Exit "; "more"]))
    = inr Terminated /\
  outcome (run unreachable_net 0 (chatLoop ∅ sample_text "openai" None ["hello"; ""]))
    = inr AwaitingInput.
Proof.
  assert (exit_sentinel "/EXIT") as Hexit.
  { exists "", "/EXIT", "". repeat split; try reflexivity; solve_casing. }
  assert (exit_sentinel " /Exit ") as Hexit'.
  { exists " ", "/Exit", " ". repeat split; try reflexivity; solve_casing. }
  assert (forall q, toLowerCase (trim q) <> "/exit" -> ~ exit_sentinel q) as Hnot.
  { intros q Hq Hs. by apply Hq, exit_sentinel_iff. }
  destruct (chatLoop_step_spec ∅ sample_text "openai" None "  " [] unreachable_net 0)
    as (Hblank & _).
  destruct (chatLoop_step_spec ∅ sample_text "openai" None "/EXIT" [] unreachable_net 0)
    as (_ & Hbreak & _).
  destruct (chatLoop_step_spec ∅ sample_text "openai" None "hello"
              ["hello"; " /Exit "; "more"] unreachable_net 0)
    as (_ & _ & Hfail & Hterminated & _).
  destruct (chatLoop_step_spec ∅ sample_text "openai" None "hello"
              ["hello"; ""] unreachable_net 0)
    as (_ & _ & _ & _ & Hawaiting).
  split; [| split; [| split; [| split]]].
  - by apply Hblank.
  - by apply Hbreak.
  - apply (Hfail [] 0 (Error "Missing OPENAI_API_KEY")).
    + reflexivity.
    + by apply Hnot.
    + reflexivity.
  - apply Hterminated. right. by left.
  - apply Hawaiting.
    intros [H | [H | H%Exists_nil]%Exists_cons]%Exists_cons; [| | done].
    + by apply (Hnot "hello").
    + by apply (Hnot "").
Defined.

(** C9 as stated fails: with [-p gemini] alone the value of the flag is
    dispatched as the prompt, and an empty last argument, positional and
    without a dash, is not dispatched. *)
Lemma prompt_rule_counterexample :
  ~ final_positional_rule ["-p"; "gemini"] /\ ~ final_positional_rule [""].
Proof.
  split; intros Hrule.
  - destruct (Hrule "gemini" eq_refl) as [Hdispatch _].
    destruct (Hdispatch eq_refl) as [_ Hpositional]. discriminate Hpositional.
  - destruct (Hrule "" eq_refl) as [_ Hdispatch].
    discriminate (Hdispatch (conj eq_refl eq_refl)).
Qed.

(** The execution behind the first half: the flag value goes to Gemini. *)
Example flag_value_sent_as_prompt :
  trace (run (fun _ _ => inr VNull) 0
           (main {[ "GOOGLE_API_KEY" := "g" ]} sample_text ["-p"; "gemini"] [])) =
  [Called (GenerateContent "g" "gemini-1.5-flash" "gemini");
   Logged (LF +:+ "=== Prin ===" +:+ LF +:+ "ok" +:+ LF)].
Proof. reflexivity. Qed.

Lemma prompt_is_last_undashed_witness :
  (dispatched_prompt ["-p"; "gemini"] = Some "gemini" <->
   startsWith "gemini" "-" = false /\ "gemini" <> "") /\
  main ∅ sample_text ["-p"; "gemini"] [] = one_shot ∅ sample_text "gemini" "gemini" None.
Proof.
  apply (prompt_is_last_undashed ∅ sample_text ["-p"; "gemini"] [] "gemini");
    reflexivity.
Defined.


Lemma getArg_first_occurrence_witness :
  getArg ["-i"; "-m"; "gpt-4o"; "-m"; "other"; "hi"] "-m" None = Some "gpt-4o".
Proof.
  apply (getArg_first_occurrence ["-i"] ["-m"; "other"; "hi"] "-m" "gpt-4o" None).
  not_in_keys.
Defined.

Lemma getArg_absent_or_trailing_witness :
  getArg ["hi"] "-p" (Some "fallback") = Some "fallback" /\
  getArg ["hi"; "-p"] "-p" (Some "fallback") = None.
Proof.
  apply (getArg_absent_or_trailing ["hi"] "-p" (Some "fallback")). not_in_keys.
Defined.

Lemma PROVIDER_default_gemini_witness : PROVIDER ["-m"; "gpt-4o"; "hi"] = "gemini".
Proof. apply (PROVIDER_default_gemini ["-m"; "gpt-4o"; "hi"]); not_in_keys. Defined.


Lemma ask_request_per_provider_witness :
  exists resume,
    ask {[ "ANTHROPIC_API_KEY" := "a" ]} sample_text "claude" "hi" None =
      Await (MessagesCreate "a" "claude-3-5-sonnet-20240620" 1024
               [{| role := "user"; content := "hi" |}]) resume.
Proof.
  apply (ask_request_per_provider {[ "ANTHROPIC_API_KEY" := "a" ]} sample_text
           "claude" "hi" "a" None).
  reflexivity.
Defined.

Lemma ask_model_override_verbatim_witness :
  exists call resume,
    ask {[ "GOOGLE_API_KEY" := "g" ]} sample_text "gemini" "hi" (Some "gemini-2.0-pro") =
      Await call resume /\
    call_model call = "gemini-2.0-pro".
Proof.
  apply (ask_model_override_verbatim {[ "GOOGLE_API_KEY" := "g" ]} sample_text
           "gemini" "hi" "g" "gemini-2.0-pro");
    [discriminate | reflexivity].
Defined.

Lemma ask_empty_credential_missing_witness :
  ask {[ "XAI_API_KEY" := "" ]} sample_text "grok" "hi" None =
    Throw (Error "Missing XAI_API_KEY").
Proof.
  apply (ask_empty_credential_missing {[ "XAI_API_KEY" := "" ]} sample_text "grok" "hi" None).
  reflexivity.
Defined.

Lemma ask_transport_failure_witness :
  run unreachable_net 0 (ask {[ "OPENAI_API_KEY" := "sk" ]} sample_text "openai" "hi" None) =
    ([Called (ChatCompletionsCreate "sk" None "gpt-4o-mini"
                [{| role := "user"; content := "hi" |}])],
     1, inl (Error "connect ECONNREFUSED")).
Proof.
  apply (ask_transport_failure {[ "OPENAI_API_KEY" := "sk" ]} sample_text
           "openai" "hi" "sk" None unreachable_net 0 (Error "connect ECONNREFUSED"));
    reflexivity.
Defined.

Lemma claude_text_returns_trimmed_string_witness :
  exists s, VStr "hi" = VStr s /\ trim s = s.
Proof.
  apply (claude_text_returns_trimmed_string
           (VObj [("content", VArr [VObj [("text", VStr "  hi ")]])]) (VStr "hi")).
  reflexivity.
Defined.

Lemma claude_text_malformed_witness :
  claude_text (VObj [("content", VNull)]) = Ret (VStr "") /\
  (exists e, claude_text (VObj [("content", VStr "oops")]) = Throw e) /\
  (exists e, claude_text (VObj [("content", VArr [VObj []; VNull])]) = Throw e).
Proof.
  destruct (claude_text_malformed [("content", VNull)]) as (Habsent & _).
  destruct (claude_text_malformed [("content", VStr "oops")]) as (_ & Hshape & _).
  destruct (claude_text_malformed [("content", VArr [VObj []; VNull])]) as (_ & _ & Hblock).
  split; [| split].
  - by apply Habsent.
  - by apply (Hshape (VStr "oops")).
  - apply (Hblock [VObj []; VNull]); [done |]. apply Exists_cons. right.
    apply Exists_cons. by left.
Defined.


Lemma chatLoop_stops_at_exit_witness :
  run unreachable_net 0 (chatLoop ∅ sample_text "openai" None ["hi"; "/exit"; "more"; "lines"]) =
  run unreachable_net 0 (chatLoop ∅ sample_text "openai" None ["hi"; "/exit"]).
Proof.
  apply (chatLoop_stops_at_exit ∅ sample_text "openai" None ["hi"] ["more"; "lines"] "/exit").
  exists "", "/exit", "". repeat split; try reflexivity; solve_casing.
Defined.

Lemma main_missing_credential_witness :
  run unreachable_net 0 (main ∅ sample_text ["-p"; "deepseek"; "hi"] []) =
    ([LoggedError "Error: Missing DEEPSEEK_API_KEY"], 0, inr tt).
Proof.
  apply (main_missing_credential ∅ sample_text ["-p"; "deepseek"; "hi"] [] "hi");
    reflexivity.
Defined.

Lemma main_prints_answer_witness :
  run (answering_net (completion "Rayleigh scattering.")) 0
      (main {[ "PPLX_API_KEY" := "p" ]} sample_text
            ["-p"; "Perplexity"; "-m"; "sonar"; "why is the sky blue?"] []) =
    ([Called (ChatCompletionsCreate "p" (Some "https://api.perplexity.ai") "sonar"
                [{| role := "user"; content := "why is the sky blue?" |}]);
      Logged (LF +:+ "=== Prin ===" +:+ LF +:+ "Rayleigh scattering." +:+ LF)],
     1, inr tt).
Proof.
  apply (main_prints_answer {[ "PPLX_API_KEY" := "p" ]} sample_text
           ["-p"; "Perplexity"; "-m"; "sonar"; "why is the sky blue?"] []
           "why is the sky blue?" "p" "Rayleigh scattering."
           (completion "Rayleigh scattering."));
    try reflexivity.
  rewrite !elem_of_cons. intros [H | [H | H%elem_of_nil]]; [discriminate H.. | done].
Defined.

Lemma MODEL_from_flags_witness :
  MODEL ["-p"; "openai"; "-m"; "gpt-4o"; "--model"; "other"; "hi"] = Some "gpt-4o" /\
  MODEL ["-p"; "openai"] = None.
Proof.
  destruct (MODEL_from_flags ["-p"; "openai"] ["--model"; "other"; "hi"] "gpt-4o")
    as [Hgiven Hnone]; [not_in_keys |].
  split; [by apply Hgiven | apply Hnone; not_in_keys].
Defined.

Lemma ask_gemini_reply_witness :
  run (answering_net VNull) 0
      (ask {[ "GOOGLE_API_KEY" := "g" ]} sample_text "gemini" "hi" None) =
    ([Called (GenerateContent "g" "gemini-1.5-flash" "hi")], 1, inr (VStr "ok")).
Proof.
  apply (ask_gemini_reply {[ "GOOGLE_API_KEY" := "g" ]} sample_text "hi" "g" None
           (answering_net VNull) 0).
  reflexivity.
Defined.


Lemma main_one_shot_never_throws_witness :
  outcome (run unreachable_net 0
             (main {[ "OPENAI_API_KEY" := "sk" ]} sample_text ["-p"; "openai"; "hi"] []))
  = inr tt.
Proof.
  apply (main_one_shot_never_throws {[ "OPENAI_API_KEY" := "sk" ]} sample_text
           ["-p"; "openai"; "hi"] [] unreachable_net 0).
  reflexivity.
Defined.
